(** * cognicraft/migrate: the statement splitter and the migration orchestrator

    A shallow embedding of the package (the statement splitter,
    [migrator.go] and the SQLite adapter), followed by the properties of the
    orchestration engine (install decisions, rank assignment, baselining,
    error propagation) and of the statement splitter.

    Go strings are byte strings: they are modelled by [string] (a list of
    8-bit [ascii] characters).  A Go [error] is [option string]: [None] is
    [nil], [Some msg] is an error whose [Error()] text is [msg]. *)

From Stdlib Require Import ZArith Lia Bool List Ascii String Sorted.
From stdpp Require Import gmap strings list fin_maps sorting.

Local Open Scope Z_scope.
Local Open Scope string_scope.
Local Open Scope list_scope.

(** ** Pieces of the Go standard library used by the package *)

Module GoStd.

Definition NL : ascii := "010"%char.
Definition CR : ascii := "013"%char.

(** [strings.HasSuffix s suffix]: [s] ends with [suffix]. *)
Fixpoint HasSuffix (s suffix : string) : bool :=
  String.eqb s suffix ||
  match s with
  | EmptyString => false
  | String _ s' => HasSuffix s' suffix
  end.

(** *** [strings.TrimSpace]

    Leading and trailing white space, as defined by Unicode, is removed.
    On a byte string the white-space runes are the six ASCII ones and the
    UTF-8 encodings of U+0085, U+00A0, U+1680, U+2000..U+200A, U+2028,
    U+2029, U+202F, U+205F and U+3000. *)

Definition byte (c : ascii) : N := N_of_ascii c.

Definition space1 (c : ascii) : bool :=
  let n := byte c in
  ((9 <=? n) && (n <=? 13) || (n =? 32))%N.

Definition space2 (c1 c2 : ascii) : bool :=
  ((byte c1 =? 194) && ((byte c2 =? 133) || (byte c2 =? 160)))%N.

Definition space3 (c1 c2 c3 : ascii) : bool :=
  let '(a, b, c) := (byte c1, byte c2, byte c3) in
  ((a =? 225) && (b =? 154) && (c =? 128)
   || (a =? 226) && (b =? 128)
        && ((128 <=? c) && (c <=? 138) || (c =? 168) || (c =? 169) || (c =? 175))
   || (a =? 226) && (b =? 129) && (c =? 159)
   || (a =? 227) && (b =? 128) && (c =? 128))%N.

Fixpoint TrimLeftSpace (s : string) : string :=
  match s with
  | EmptyString => EmptyString
  | String c1 r1 =>
      if space1 c1 then TrimLeftSpace r1 else
      match r1 with
      | EmptyString => s
      | String c2 r2 =>
          if space2 c1 c2 then TrimLeftSpace r2 else
          match r2 with
          | EmptyString => s
          | String c3 r3 =>
              if space3 c1 c2 c3 then TrimLeftSpace r3 else s
          end
      end
  end.

(** The same scan from the end, on the reversed string: the bytes of a
    multi-byte rune are met last byte first. *)
Fixpoint TrimLeftSpaceRev (s : string) : string :=
  match s with
  | EmptyString => EmptyString
  | String c1 r1 =>
      if space1 c1 then TrimLeftSpaceRev r1 else
      match r1 with
      | EmptyString => s
      | String c2 r2 =>
          if space2 c2 c1 then TrimLeftSpaceRev r2 else
          match r2 with
          | EmptyString => s
          | String c3 r3 =>
              if space3 c3 c2 c1 then TrimLeftSpaceRev r3 else s
          end
      end
  end.

Definition TrimRightSpace (s : string) : string :=
  String.rev (TrimLeftSpaceRev (String.rev s)).

Definition TrimSpace (s : string) : string :=
  TrimRightSpace (TrimLeftSpace s).

(** *** [bufio.Scanner] with the default [ScanLines] split function

    The input is cut at every newline; a final piece is a token only when
    it is not empty; one trailing carriage return is dropped from each
    token.  A token, with its newline, has to fit the scanner's buffer of
    [MaxScanTokenSize] bytes: at the first line that does not, [Scan]
    returns false and the loop over the lines ends. *)

Definition MaxScanTokenSize : N := 65536.

(** The pieces between newlines: the first one, and the others. *)
Fixpoint split_nl (s : string) : string * list string :=
  match s with
  | EmptyString => (EmptyString, [])
  | String c s' =>
      let '(p, ps) := split_nl s' in
      if Ascii.eqb c NL then (EmptyString, p :: ps) else (String c p, ps)
  end.

Fixpoint drop_empty_last (ps : list string) : list string :=
  match ps with
  | [] => []
  | [p] => if String.eqb p EmptyString then [] else [p]
  | p :: ps' => p :: drop_empty_last ps'
  end.

Definition raw_lines (s : string) : list string :=
  let '(p, ps) := split_nl s in drop_empty_last (p :: ps).

Definition fits (line : string) : bool :=
  (N.of_nat (String.length line) <? MaxScanTokenSize)%N.

Fixpoint scan_while (ls : list string) : list string :=
  match ls with
  | [] => []
  | l :: ls' => if fits l then l :: scan_while ls' else []
  end.

Definition dropCR (line : string) : string :=
  match String.rev line with
  | String c r => if Ascii.eqb c CR then String.rev r else line
  | EmptyString => line
  end.

Definition ScanLines (s : string) : list string :=
  map dropCR (scan_while (raw_lines s)).

(** *** [regexp]: a compiled expression and unanchored matching

    [MatchString] reports whether the string contains any match of the
    expression.  Matching is by derivatives; [AnyNotNL] is the dot, which
    in Go's default mode matches everything but a newline. *)

Inductive regexp : Type :=
| Never
| Eps
| Lit (c : ascii)
| AnyNotNL
| Cat (r1 r2 : regexp)
| Alt (r1 r2 : regexp)
| Star (r : regexp).

Definition Opt (r : regexp) : regexp := Alt r Eps.

Fixpoint Str (s : string) : regexp :=
  match s with
  | EmptyString => Eps
  | String c s' => Cat (Lit c) (Str s')
  end.

Fixpoint nullable (r : regexp) : bool :=
  match r with
  | Never | Lit _ | AnyNotNL => false
  | Eps | Star _ => true
  | Cat r1 r2 => nullable r1 && nullable r2
  | Alt r1 r2 => nullable r1 || nullable r2
  end.

Fixpoint deriv (c : ascii) (r : regexp) : regexp :=
  match r with
  | Never | Eps => Never
  | Lit c' => if Ascii.eqb c c' then Eps else Never
  | AnyNotNL => if Ascii.eqb c NL then Never else Eps
  | Cat r1 r2 =>
      if nullable r1 then Alt (Cat (deriv c r1) r2) (deriv c r2)
      else Cat (deriv c r1) r2
  | Alt r1 r2 => Alt (deriv c r1) (deriv c r2)
  | Star r1 => Cat (deriv c r1) (Star r1)
  end.

(** Some prefix of [s] matches [r]. *)
Fixpoint match_prefix (r : regexp) (s : string) : bool :=
  nullable r ||
  match s with
  | EmptyString => false
  | String c s' => match_prefix (deriv c r) s'
  end.

Fixpoint MatchString (r : regexp) (s : string) : bool :=
  match_prefix r s ||
  match s with
  | EmptyString => false
  | String _ s' => MatchString r s'
  end.

(** *** [strconv.ParseInt s 10 64]

    An optional sign followed by one or more decimal digits, read by
    [ParseUint].  [ParseUint] reads the digits from left to right and
    returns at the first byte that is not a digit (a syntax error, value 0)
    or at the first digit with which the value leaves the unsigned 64-bit
    range (a range error, value [maxUint64]), whichever comes first: what
    follows that byte is not read.  [ParseInt] returns 0 on a syntax error,
    and the nearest bound of the signed 64-bit range when the value is out
    of range.  The second component of its result tells whether an error is
    returned. *)

Definition digit (c : ascii) : option Z :=
  let n := byte c in
  if ((48 <=? n) && (n <=? 57))%N then Some (Z.of_N n - 48) else None.

Inductive NumError : Type := ErrSyntax | ErrRange.

Definition maxUint64 : Z := 2 ^ 64 - 1.

(** The least value whose product with the base overflows. *)
Definition uint_cutoff : Z := maxUint64 / 10 + 1.

(** The loop of [ParseUint] over the bytes of its argument; [n] is the
    value of the digits read so far. *)
Fixpoint parse_digits (s : string) (n : Z) : Z * option NumError :=
  match s with
  | EmptyString => (n, None)
  | String c s' =>
      match digit c with
      | None => (0, Some ErrSyntax)
      | Some d =>
          if (uint_cutoff <=? n)%Z then (maxUint64, Some ErrRange)
          else
            let n1 := 10 * n + d in
            if (maxUint64 <? n1)%Z then (maxUint64, Some ErrRange)
            else parse_digits s' n1
      end
  end.

Definition ParseUint (s : string) : Z * option NumError :=
  match s with
  | EmptyString => (0, Some ErrSyntax)
  | _ => parse_digits s 0
  end.

Definition cutoff : Z := 2 ^ 63.

Definition ParseInt (s : string) : Z * bool :=
  match s with
  | EmptyString => (0, true)
  | String c s' =>
      let neg := Ascii.eqb c "-" in
      let body := if Ascii.eqb c "+" || neg then s' else s in
      match ParseUint body with
      | (_, Some ErrSyntax) => (0, true)
      | (un, _) =>
          if negb neg && (cutoff <=? un)%Z then (cutoff - 1, true)
          else if neg && (cutoff <? un)%Z then (- cutoff, true)
          else (if neg then - un else un, false)
      end
  end.

(** Go's [int] on a 64-bit platform: arithmetic wraps around. *)
Definition wrap64 (x : Z) : Z := (x + 2 ^ 63) mod 2 ^ 64 - 2 ^ 63.

End GoStd.

(** ** The statement splitter: [Statements] and [StatementBuilder] *)

Module Splitter.
Import GoStd.

Record StatementBuilder : Type := mkStatementBuilder {
  createTrigger : bool;
  terminated : bool;
  buffer : string
}.

Definition NewStatementBuilder : StatementBuilder :=
  {| createTrigger := false; terminated := false; buffer := EmptyString |}.

(** The expression [CREATE( TEMP| TEMPORARY)? TRIGGER.*]. *)
Definition createTriggerRE : regexp :=
  Cat (Str "CREATE")
    (Cat (Opt (Alt (Str " TEMP") (Str " TEMPORARY")))
       (Cat (Str " TRIGGER") (Star AnyNotNL))).

Definition Append (b : StatementBuilder) (line : string) : StatementBuilder :=
  let line := TrimSpace line in
  let fresh := (String.length (buffer b) =? 0)%nat in
  let trigger := if fresh then MatchString createTriggerRE line else createTrigger b in
  let buf := if fresh then buffer b else buffer b +:+ String NL EmptyString in
  {| createTrigger := trigger;
     terminated := if trigger then HasSuffix line "END;" else HasSuffix line ";";
     buffer := buf +:+ line |}.

Definition IsTerminated (b : StatementBuilder) : bool := terminated b.

Definition Statement (b : StatementBuilder) : string := buffer b.

(** The scanner loop of [Statements]: [ss] and [builder] are the two
    variables of the loop. *)
Fixpoint scan_loop (lines : list string) (builder : StatementBuilder)
    (ss : list string) : list string * StatementBuilder :=
  match lines with
  | [] => (ss, builder)
  | line :: rest =>
      let builder := Append builder line in
      if IsTerminated builder
      then scan_loop rest NewStatementBuilder (ss ++ [Statement builder])
      else scan_loop rest builder ss
  end.

Definition Statements (script : string) : list string :=
  fst (scan_loop (ScanLines script) NewStatementBuilder []).

End Splitter.


(** ** migrator.go: the orchestrator *)

Module Migrate.
Import GoStd.

(** A Go [error]. *)
Definition error : Type := option string.

(** [type Version string], [type Status string], [type Type string]. *)
Definition VersionNone : string := EmptyString.
Definition VersionRepeatable : string := "R".
Definition StatusSuccess : string := "success".
Definition StatusFailed : string := "failed".
Definition TypeGo : string := "Go".
Definition TypeSQL : string := "SQL".
Definition TypeBaseline : string := "Baseline".

Definition LEQ (a b : string) : bool :=
  let ai := fst (ParseInt a) in
  let bi := fst (ParseInt b) in
  (ai <=? bi)%Z.

(** What lies behind the [*sql.DB] handle and the wall clock: [DB] is the
    state of the database (and of whatever else a migration may touch),
    [Now] reads the clock in nanoseconds, [Exec] is [db.Exec]. *)
Class Conn (DB : Type) : Type := {
  Now : DB -> Z;
  Exec : DB -> string -> DB * error
}.

(** One call of the [LogFunc]: the format and its rendered arguments. *)
Definition LogCall : Type := string * list string.

Section Orchestrator.
Context {DB : Type} `{Conn DB}.

Definition CommandFunc : Type := DB -> DB * error.

Record Migration : Type := mkMigration {
  Rank : Z;
  Version : string;
  Description : string;
  Type_ : string;
  Checksum : string;
  Date : Z;
  ExecutionTime : Z;
  Status : string;
  Execute : option CommandFunc
}.

Definition IsRepeatable (m : Migration) : bool :=
  String.eqb (Version m) VersionRepeatable.

(** [Migration.String]. *)
Definition String_ (m : Migration) : string :=
  "@Migration|version=" +:+ Version m +:+ "|description=" +:+ Description m
    +:+ "|type=" +:+ Type_ m.

Record Support : Type := mkSupport {
  ExistsMigrationsTable : DB -> DB * (bool * error);
  CreateMigrationsTable : DB -> DB * error;
  RecordMigration : DB -> Migration -> DB * error;
  ListMigrations : DB -> DB * (list Migration * error);
  Clean : DB -> DB * error
}.

Record Migrator : Type := mkMigrator {
  support : Support;
  migrations : list Migration;
  repeatable : list Migration
}.

Definition NewMigrator (s : Support) : Migrator :=
  {| support := s; migrations := []; repeatable := [] |}.

(** The state threaded through a call: the database behind [m.db] and
    what has been passed to [m.log] so far. *)
Record World : Type := mkWorld {
  db : DB;
  logged : list LogCall
}.

Definition with_db (w : World) (d : DB) : World :=
  {| db := d; logged := logged w |}.

Definition log (w : World) (format : string) (args : list string) : World :=
  {| db := db w; logged := logged w ++ [(format, args)] |}.

(** *** Registration *)

Definition Add (m : Migrator) (mig : Migration) : Migrator :=
  if IsRepeatable mig
  then {| support := support m; migrations := migrations m;
          repeatable := repeatable m ++ [mig] |}
  else {| support := support m; migrations := migrations m ++ [mig];
          repeatable := repeatable m |}.

Fixpoint exec_all (stmts : list string) (d : DB) : DB * error :=
  match stmts with
  | [] => (d, None)
  | stmt :: rest =>
      match Exec d stmt with
      | (d', Some err) => (d', Some err)
      | (d', None) => exec_all rest d'
      end
  end.

(** [SQLChecksum script] is the hexadecimal MD5 digest of the script;
    the digest function is a parameter. *)
Variable SQLChecksum : string -> string.

Definition AddSQLMigration (m : Migrator) (version description script : string)
    : Migrator :=
  Add m {| Rank := 0; Version := version; Description := description;
           Type_ := TypeSQL; Checksum := SQLChecksum script;
           Date := 0; ExecutionTime := 0; Status := EmptyString;
           Execute := Some (exec_all (Splitter.Statements script)) |}.

Definition AddRepeatableSQLMigration (m : Migrator) (description script : string)
    : Migrator :=
  AddSQLMigration m VersionRepeatable description script.

Definition AddGoMigration (m : Migrator) (version description : string)
    (execute : option CommandFunc) : Migrator :=
  Add m {| Rank := 0; Version := version; Description := description;
           Type_ := TypeGo; Checksum := EmptyString;
           Date := 0; ExecutionTime := 0; Status := EmptyString;
           Execute := execute |}.

Definition AddRepeatableGoMigration (m : Migrator) (description : string)
    (execute : option CommandFunc) : Migrator :=
  AddGoMigration m VersionRepeatable description execute.

(** *** install *)

Definition with_rank (mig : Migration) (rank : Z) : Migration :=
  {| Rank := rank; Version := Version mig; Description := Description mig;
     Type_ := Type_ mig; Checksum := Checksum mig; Date := Date mig;
     ExecutionTime := ExecutionTime mig; Status := Status mig;
     Execute := Execute mig |}.

(** The record as [install] hands it to the adapter. *)
Definition finished (mig : Migration) (date elapsed : Z) (status : string)
    : Migration :=
  {| Rank := Rank mig; Version := Version mig; Description := Description mig;
     Type_ := Type_ mig; Checksum := Checksum mig; Date := date;
     ExecutionTime := elapsed; Status := status; Execute := Execute mig |}.

(** [int(time.Since(date) / time.Millisecond)]: a [Duration] is a 64-bit
    count of nanoseconds, saturating. *)
Definition since_ms (date now : Z) : Z :=
  Z.quot (Z.max (- cutoff) (Z.min (cutoff - 1) (now - date))) 1000000.

Definition install (m : Migrator) (mig : Migration) (w : World) : World * error :=
  match Execute mig with
  | None => (w, Some ("cannot execute migration: " +:+ String_ mig))
  | Some execute =>
      let w := log w "installing: %s" [String_ mig] in
      let date := Now (db w) in
      let '(d, err) := execute (db w) in
      let elapsed := since_ms date (Now d) in
      let mig := finished mig date elapsed
                   (match err with None => StatusSuccess | Some _ => StatusFailed end) in
      let '(d, rErr) := RecordMigration (support m) d mig in
      match rErr with
      | Some r =>
          (with_db w d, Some ("record migration: " +:+ String_ mig +:+ ": " +:+ r))
      | None => (with_db w d, err)
      end
  end.

(** *** Migrate *)

(** The loop over the installed migrations; its variables are [rank],
    [lastInstalled] and [checksumsRepeatable]. *)
Fixpoint scan_installed (installed : list Migration) (rank : Z)
    (lastInstalled : string) (checksumsRepeatable : gmap string string)
    : string + (Z * string * gmap string string) :=
  match installed with
  | [] => inr (rank, lastInstalled, checksumsRepeatable)
  | mig :: rest =>
      if IsRepeatable mig then
        scan_installed rest (Rank mig) lastInstalled
          (<[Description mig := Checksum mig]> checksumsRepeatable)
      else if String.eqb (Status mig) StatusFailed then
        inl ("detected a failed migration: " +:+ String_ mig)
      else if String.eqb (Status mig) StatusSuccess then
        scan_installed rest (Rank mig) (Version mig) checksumsRepeatable
      else
        inl ("unknown status in migration: " +:+ String_ mig)
  end.

(** The loop that installs the pending migrations. *)
Fixpoint install_pending (m : Migrator) (lastInstalled : string)
    (migs : list Migration) (rank : Z) (w : World) : World * Z * error :=
  match migs with
  | [] => (w, rank, None)
  | mig :: rest =>
      if LEQ (Version mig) lastInstalled then
        install_pending m lastInstalled rest rank
          (log w "skipping installed migration: %s - %s"
             [Version mig; Description mig])
      else
        let rank := wrap64 (rank + 1) in
        let mig := with_rank mig rank in
        match install m mig w with
        | (w, Some err) => (w, rank, Some err)
        | (w, None) => install_pending m lastInstalled rest rank w
        end
  end.

(** The test of the repeatable loop: a checksum is recorded for the
    description and it is the migration's. *)
Definition unchanged (checksumsRepeatable : gmap string string)
    (mig : Migration) : bool :=
  match checksumsRepeatable !! Description mig with
  | Some cs => String.eqb cs (Checksum mig)
  | None => false
  end.

(** The loop that installs the repeatable migrations. *)
Fixpoint install_repeatable (m : Migrator)
    (checksumsRepeatable : gmap string string)
    (migs : list Migration) (rank : Z) (w : World) : World * Z * error :=
  match migs with
  | [] => (w, rank, None)
  | mig :: rest =>
      if unchanged checksumsRepeatable mig then
        install_repeatable m checksumsRepeatable rest rank
          (log w "skipping repeatable migration: %s" [Description mig])
      else
        let rank := wrap64 (rank + 1) in
        let mig := with_rank mig rank in
        match install m mig w with
        | (w, Some err) => (w, rank, Some err)
        | (w, None) => install_repeatable m checksumsRepeatable rest rank w
        end
  end.

(** The part of [Migrate] and [Baseline] that makes sure the history
    table exists and reads it. *)
Definition read_history (m : Migrator) (w : World)
    : World * (list Migration * error) :=
  let '(d, (exists_, err)) := ExistsMigrationsTable (support m) (db w) in
  let w := with_db w d in
  match err with
  | Some e => (w, ([], Some e))
  | None =>
      let '(w, err) :=
        if exists_ then (w, None)
        else let '(d, err) := CreateMigrationsTable (support m) (db w) in
             (with_db w d, err) in
      match err with
      | Some e => (w, ([], Some e))
      | None =>
          let '(d, (installed, err)) := ListMigrations (support m) (db w) in
          (with_db w d, (installed, err))
      end
  end.

Definition Migrate (m : Migrator) (w : World) : World * error :=
  match read_history m w with
  | (w, (_, Some err)) => (w, Some err)
  | (w, (installed, None)) =>
      match scan_installed installed 0 VersionNone ∅ with
      | inl err => (w, Some err)
      | inr (rank, lastInstalled, checksumsRepeatable) =>
          match install_pending m lastInstalled (migrations m) rank w with
          | (w, _, Some err) => (w, Some err)
          | (w, rank, None) =>
              match install_repeatable m checksumsRepeatable (repeatable m) rank w with
              | (w, _, Some err) => (w, Some err)
              | (w, _, None) => (w, None)
              end
          end
      end
  end.

(** *** Clean, Info, Baseline *)

(** [Migrator.Clean]; the name [Clean] is the one of the adapter's operation. *)
Definition Clean_ (m : Migrator) (w : World) : World * error :=
  let '(d, err) := Clean (support m) (db w) in (with_db w d, err).

Definition Info (m : Migrator) (w : World) : World * list Migration :=
  let '(d, (ms, err)) := ListMigrations (support m) (db w) in
  let w := with_db w d in
  match err with
  | Some e => (log w "error: %v" [e], ms)
  | None => (w, ms)
  end.

(** [Validate] and [Repair] have empty bodies. *)
Definition Validate (m : Migrator) (w : World) : World := w.

Definition Repair (m : Migrator) (w : World) : World := w.

Definition baseline_record (version description : string) (date : Z) : Migration :=
  {| Rank := 1; Version := version; Description := description;
     Type_ := TypeBaseline; Checksum := EmptyString; Date := date;
     ExecutionTime := 0; Status := StatusSuccess; Execute := None |}.

Definition Baseline (m : Migrator) (version description : string) (w : World)
    : World * error :=
  match read_history m w with
  | (w, (_, Some err)) => (w, Some err)
  | (w, (installed, None)) =>
      if (0 <? length installed)%nat then
        (w, Some "unable to baseline: found existing migrations")
      else
        let mig := baseline_record version description (Now (db w)) in
        let '(d, _) := RecordMigration (support m) (db w) mig in
        Migrate m (with_db w d)
  end.

End Orchestrator.

Arguments Migration DB : clear implicits.
Arguments CommandFunc DB : clear implicits.
Arguments Support DB : clear implicits.
Arguments Migrator DB : clear implicits.
Arguments World DB : clear implicits.

End Migrate.

(** ** The SQLite adapter

    The engine is modelled by what the adapter's statements depend on: the
    rows of the [migrations] table when the table exists, kept in the order
    a [SELECT] without [ORDER BY] returns them (by rowid, which the
    [INTEGER] primary key [rank] aliases); the other entries of
    [sqlite_master], as (type, name) pairs; and whether the database was
    opened read-only.  The contents of the other tables are not modelled. *)

Module SQLite.
Import GoStd Migrate.

Record Row : Type := mkRow {
  r_rank : Z;
  r_version : string;
  r_description : string;
  r_type : string;
  r_checksum : string;
  r_date : Z;               (* the RFC 3339 text, as seconds since the epoch *)
  r_execution_time : Z;
  r_status : string
}.

Record SqliteDB : Type := mkSqliteDB {
  migrations_table : option (list Row);
  master : list (string * string);
  readonly : bool
}.

Definition with_table (d : SqliteDB) (t : option (list Row)) : SqliteDB :=
  {| migrations_table := t; master := master d; readonly := readonly d |}.

Definition errReadonly : string := "attempt to write a readonly database".
Definition errNoTable : string := "no such table: migrations".
Definition errExists : string := "table migrations already exists".
Definition errUnique : string := "UNIQUE constraint failed: migrations.rank".

(** [INSERT] into a table whose primary key is [rank]. *)
Fixpoint insert_row (r : Row) (rows : list Row) : option (list Row) :=
  match rows with
  | [] => Some [r]
  | x :: rest =>
      if (r_rank r <? r_rank x)%Z then Some (r :: rows)
      else if (r_rank r =? r_rank x)%Z then None
      else option_map (cons x) (insert_row r rest)
  end.

Definition dropped (kind : string) : bool :=
  String.eqb kind "table" || String.eqb kind "index" || String.eqb kind "trigger".

Definition to_row (m : Migration SqliteDB) : Row :=
  {| r_rank := Rank m; r_version := Version m; r_description := Description m;
     r_type := Type_ m; r_checksum := Checksum m;
     r_date := (Date m / 1000000000)%Z;
     r_execution_time := ExecutionTime m; r_status := Status m |}.

Definition of_row (r : Row) : Migration SqliteDB :=
  {| Rank := r_rank r; Version := r_version r; Description := r_description r;
     Type_ := r_type r; Checksum := r_checksum r;
     Date := (r_date r * 1000000000)%Z;
     ExecutionTime := r_execution_time r; Status := r_status r;
     Execute := None |}.

Definition sqliteExistsMigrationsTable (d : SqliteDB) : SqliteDB * (bool * error) :=
  (d, (match migrations_table d with Some _ => true | None => false end, None)).

Definition sqliteCreateMigrationsTable (d : SqliteDB) : SqliteDB * error :=
  if readonly d then (d, Some errReadonly)
  else match migrations_table d with
       | Some _ => (d, Some errExists)
       | None => (with_table d (Some []), None)
       end.

(** Of the four statements only the result of the last one is kept. *)
Definition sqliteClean (d : SqliteDB) : SqliteDB * error :=
  if readonly d then (d, Some errReadonly)
  else ({| migrations_table := None;
           master := filter (fun o => negb (dropped (fst o))) (master d);
           readonly := false |}, None).

Definition sqliteRecordMigration (d : SqliteDB) (m : Migration SqliteDB)
    : SqliteDB * error :=
  match migrations_table d with
  | None => (d, Some errNoTable)
  | Some rows =>
      if readonly d then (d, Some errReadonly)
      else match insert_row (to_row m) rows with
           | None => (d, Some errUnique)
           | Some rows' => (with_table d (Some rows'), None)
           end
  end.

Definition sqliteListMigrations (d : SqliteDB)
    : SqliteDB * (list (Migration SqliteDB) * error) :=
  match migrations_table d with
  | None => (d, ([], Some errNoTable))
  | Some rows => (d, (map of_row rows, None))
  end.

Definition SQLiteSupport : Support SqliteDB :=
  {| ExistsMigrationsTable := sqliteExistsMigrationsTable;
     CreateMigrationsTable := sqliteCreateMigrationsTable;
     RecordMigration := sqliteRecordMigration;
     ListMigrations := sqliteListMigrations;
     Clean := sqliteClean |}.

(** The rows of the history, none when the table is missing. *)
Definition history (d : SqliteDB) : list Row :=
  match migrations_table d with
  | Some rows => rows
  | None => []
  end.

End SQLite.

(** ** Vocabulary of the statements about the splitter *)

Module SplitterSpec.
Import GoStd Splitter.

Definition nl : string := String NL EmptyString.

(** [strings.Join lines "\n"]. *)
Fixpoint join_nl (lines : list string) : string :=
  match lines with
  | [] => EmptyString
  | [l] => l
  | l :: rest => l +:+ nl +:+ join_nl rest
  end.

Definition blank (line : string) : bool :=
  String.eqb (TrimSpace line) EmptyString.

(** The input is empty or ends with a newline: text appended to it starts
    a line of its own. *)
Definition whole_lines (s : string) : bool :=
  String.eqb s EmptyString || HasSuffix s nl.

(** The trimmed first line that is not blank, if there is one. *)
Fixpoint first_nonblank (lines : list string) : string :=
  match lines with
  | [] => EmptyString
  | l :: rest => if blank l then first_nonblank rest else TrimSpace l
  end.

(** The terminator the builder [b] waits for when [lines] are still to be
    read: the mode is that of the statement under way, or, when none is,
    the one the first line that is not blank will select. *)
Definition awaited (b : StatementBuilder) (lines : list string) : string :=
  let trigger :=
    if String.eqb (buffer b) EmptyString
    then MatchString createTriggerRE (first_nonblank lines)
    else createTrigger b in
  if trigger then "END;" else ";".

(** The state of the scanner loop once the lines of [script] are read. *)
Definition builder_after (script : string) : StatementBuilder :=
  snd (scan_loop (ScanLines script) NewStatementBuilder []).

End SplitterSpec.

(** ** Vocabulary of the statements about the orchestrator *)

Module MigrateSpec.
Import GoStd Migrate.

(** [strings.Contains s substr]. *)
Fixpoint Contains (s substr : string) : bool :=
  String.prefix substr s ||
  match s with
  | EmptyString => false
  | String _ s' => Contains s' substr
  end.

Section Vocabulary.
Context {DB : Type} `{Conn DB}.

(** A record of a sequential migration that failed. *)
Definition failed_sequential (mig : Migration DB) : bool :=
  negb (IsRepeatable mig) && String.eqb (Status mig) StatusFailed.

(** The checksum last recorded for a description, reading the history in
    the order of the scan; only records of repeatable migrations count. *)
Fixpoint last_recorded (installed : list (Migration DB)) (description : string)
    : option string :=
  match installed with
  | [] => None
  | mig :: rest =>
      match last_recorded rest description with
      | Some cs => Some cs
      | None =>
          if IsRepeatable mig && String.eqb (Description mig) description
          then Some (Checksum mig) else None
      end
  end.

(** The common shape of the two install loops of [Migrate]: [skip] is the
    test, [note] the call of the logger when it holds. *)
Fixpoint install_where (m : Migrator DB) (skip : Migration DB -> bool)
    (note : Migration DB -> LogCall) (migs : list (Migration DB)) (rank : Z)
    (w : World DB) : World DB * Z * error :=
  match migs with
  | [] => (w, rank, None)
  | mig :: rest =>
      if skip mig then
        install_where m skip note rest rank (log w (fst (note mig)) (snd (note mig)))
      else
        let rank := wrap64 (rank + 1) in
        match install m (with_rank mig rank) w with
        | (w, Some err) => (w, rank, Some err)
        | (w, None) => install_where m skip note rest rank w
        end
  end.

Definition note_installed (mig : Migration DB) : LogCall :=
  ("skipping installed migration: %s - %s", [Version mig; Description mig]).

Definition note_repeatable (mig : Migration DB) : LogCall :=
  ("skipping repeatable migration: %s", [Description mig]).

(** The two loops of [Migrate] one after the other, from the values the
    scan of the history has left in [rank], [lastInstalled] and
    [checksumsRepeatable]. *)
Definition run_loops (m : Migrator DB) (migs reps : list (Migration DB))
    (rank : Z) (lastInstalled : string) (checksumsRepeatable : gmap string string)
    (w : World DB) : World DB * error :=
  match install_where m (fun mig => LEQ (Version mig) lastInstalled)
          note_installed migs rank w with
  | (w, _, Some err) => (w, Some err)
  | (w, rank, None) =>
      match install_where m (unchanged checksumsRepeatable) note_repeatable
              reps rank w with
      | (w, _, Some err) => (w, Some err)
      | (w, _, None) => (w, None)
      end
  end.

(** The last element of a list, [d] when it is empty. *)
Fixpoint last_or {A : Type} (l : list A) (d : A) : A :=
  match l with
  | [] => d
  | x :: l' => last_or l' x
  end.

(** The description and checksum a record of a repeatable migration puts
    into the map of the scan. *)
Definition entry (mig : Migration DB) : string * string :=
  (Description mig, Checksum mig).

Definition record_all (checksums : gmap string string)
    (entries : list (string * string)) : gmap string string :=
  fold_left (fun c e => <[fst e := snd e]> c) entries checksums.

(** A record of a sequential migration whose status is not success. *)
Definition unsuccessful_sequential (mig : Migration DB) : bool :=
  negb (IsRepeatable mig) && negb (String.eqb (Status mig) StatusSuccess).

(** The migrator after the calls of [Add] for [migs], in that order. *)
Definition add_all (m : Migrator DB) (migs : list (Migration DB)) : Migrator DB :=
  fold_left Add migs m.

(** A registry as [Add] builds it. *)
Definition registry_ok (m : Migrator DB) : Prop :=
  Forall (fun mig => IsRepeatable mig = false) (migrations m)
  /\ Forall (fun mig => IsRepeatable mig = true) (repeatable m).

(** The registry without its sequential migrations [migs]. *)
Definition with_migrations (m : Migrator DB) (migs : list (Migration DB))
    : Migrator DB :=
  {| support := support m; migrations := migs; repeatable := repeatable m |}.

(** A call of the logger that announces an install. *)
Definition is_installing (c : LogCall) : bool :=
  String.eqb (fst c) "installing: %s".

(** The call of the logger with which [install] announces a migration. *)
Definition installing (mig : Migration DB) : LogCall :=
  ("installing: %s", [String_ mig]).

(** The numeric value a version is compared by. *)
Definition number (version : string) : Z := fst (ParseInt version).

End Vocabulary.

End MigrateSpec.

(** ** Vocabulary of the statements about the orchestrator on SQLite *)

Module SQLiteSpec.
Import GoStd Migrate MigrateSpec SQLite.

(** The callable of a migration leaves the history table alone. *)
Definition preserves_table (mig : Migration SqliteDB) : Prop :=
  forall execute d,
    Execute mig = Some execute ->
    migrations_table (fst (execute d)) = migrations_table d.

(** The row [r] is a record of the migration [mig]. *)
Definition records (mig : Migration SqliteDB) (r : Row) : Prop :=
  r_version r = Version mig /\ r_description r = Description mig
  /\ r_type r = Type_ mig /\ r_checksum r = Checksum mig.

(** The rank of the last row, 0 for an empty history. *)
Definition top_rank (rows : list Row) : Z :=
  match last rows with
  | Some r => r_rank r
  | None => 0
  end.

(** The rows are in the order of their primary key. *)
Definition by_rank (rows : list Row) : Prop :=
  StronglySorted (fun a b => r_rank a < r_rank b) rows.

(** The sequential migrations are registered in the order of their
    versions, equal versions allowed. *)
Definition ascending (migs : list (Migration SqliteDB)) : Prop :=
  StronglySorted (fun a b => number (Version a) <= number (Version b)) migs.

(** The rank counter has room for every registered migration above the
    ranks of the history. *)
Definition room (rows : list Row) (m : Migrator SqliteDB) : Prop :=
  - 2 ^ 63 <= top_rank rows + 1
  /\ top_rank rows + Z.of_nat (length (migrations m) + length (repeatable m))
     < 2 ^ 63.

(** The test of the sequential loop, negated. *)
Definition pending (lastInstalled : string) (mig : Migration SqliteDB) : bool :=
  negb (LEQ (Version mig) lastInstalled).

(** The callable of a migration leaves the access mode of the database as
    it is. *)
Definition preserves_mode (mig : Migration SqliteDB) : Prop :=
  forall execute d,
    Execute mig = Some execute -> readonly (fst (execute d)) = readonly d.

(** The test of the repeatable loop, negated. *)
Definition changed (checksums : gmap string string) (mig : Migration SqliteDB)
    : bool :=
  negb (unchanged checksums mig).


(** How a run of the loops that returns an error has ended: the last
    record written is one of a failed install, or the first migration left
    over has no callable. *)
Definition stopped (rest : list (Migration SqliteDB)) (new : list Row) : Prop :=
  (exists r, last new = Some r /\ r_status r = StatusFailed)
  \/ (exists mig rest', rest = mig :: rest' /\ Execute mig = None).

End SQLiteSpec.

(** ** What a regular expression denotes *)

Module RegexpSpec.
Import GoStd.

(** [matches r s]: the whole of [s] is in the language of [r]. *)
Inductive matches : regexp -> string -> Prop :=
| MEps : matches Eps EmptyString
| MLit c : matches (Lit c) (String c EmptyString)
| MAny c : c <> NL -> matches AnyNotNL (String c EmptyString)
| MCat r1 r2 s1 s2 : matches r1 s1 -> matches r2 s2 -> matches (Cat r1 r2) (s1 +:+ s2)
| MAltL r1 r2 s : matches r1 s -> matches (Alt r1 r2) s
| MAltR r1 r2 s : matches r2 s -> matches (Alt r1 r2) s
| MStar0 r : matches (Star r) EmptyString
| MStarApp r s1 s2 :
    matches r s1 -> matches (Star r) s2 -> matches (Star r) (s1 +:+ s2).

(** [s] has [sub] somewhere inside. *)
Definition has_substring (s sub : string) : Prop :=
  exists pre post, s = pre +:+ sub +:+ post.

(** Every line of the input is short enough for the scanner. *)
Definition fits_all (script : string) : bool := forallb fits (raw_lines script).

End RegexpSpec.

(** ** Decimal numerals *)

Module NumeralSpec.
Import GoStd.

Definition digit_char (d : Z) : ascii := ascii_of_N (48 + Z.to_N d).

(** The decimal digits of [n], at most [fuel] of them, without leading
    zeros. *)
Fixpoint show_digits (fuel : nat) (n : Z) : string :=
  match fuel with
  | O => EmptyString
  | S fuel' =>
      (if (n <? 10)%Z then EmptyString else show_digits fuel' (n / 10))
        +:+ String (digit_char (n mod 10)) EmptyString
  end.

(** [strconv.FormatInt n 10] for a 64-bit [n]: the numeral of [n], which
    has at most 19 digits, with a minus sign when [n] is negative. *)
Definition FormatInt (n : Z) : string :=
  if (n <? 0)%Z then String "-" (show_digits 19 (- n)) else show_digits 19 n.

End NumeralSpec.

(** ** Concrete inputs *)

Module Inputs.
Import GoStd Splitter SplitterSpec.

Definition tab3 : string := String "009" (String "009" (String "009" EmptyString)).

(** The scripts of [TestStatements]. *)
Definition script1 : string := "CREATE TABLE foo (bar PRIMARY KEY);".

Definition script2 : string :=
  nl +:+ tab3 +:+ "CREATE TABLE foo (bar PRIMARY KEY);" +:+ nl
     +:+ tab3 +:+ "CREATE TABLE bar (baz PRIMARY KEY);" +:+ nl +:+ tab3.

Definition trigger_lines : list string :=
  [tab3 +:+ "CREATE TRIGGER IF NOT EXISTS stream_version AFTER INSERT ON events";
   tab3 +:+ "FOR EACH ROW";
   tab3 +:+ "BEGIN";
   tab3 +:+ "UPDATE streams SET version = NEW.streamIndex+1 WHERE id=NEW.streamID;"].

Definition script3 : string :=
  nl +:+ join_nl trigger_lines +:+ nl +:+ tab3 +:+ "END;" +:+ nl +:+ tab3.

(** A complete statement followed by a trigger whose [END;] is missing. *)
Definition complete_head : string := "DROP TABLE foo;" +:+ nl.

Definition open_trigger : string :=
  "CREATE TEMP TRIGGER t AFTER INSERT ON foo" +:+ nl +:+ "BEGIN" +:+ nl
    +:+ "DELETE FROM bar;" +:+ nl.

(** A statement over two lines after two blank lines, then one more. *)
Definition two_line_insert : string :=
  nl +:+ tab3 +:+ nl +:+ tab3 +:+ "INSERT INTO foo" +:+ nl
     +:+ tab3 +:+ "VALUES (1);" +:+ nl +:+ "DROP TABLE foo;".

(** A connection whose clock stands still and whose [Exec] does nothing. *)
Definition conn0 : Migrate.Conn SQLite.SqliteDB :=
  {| Migrate.Now := fun _ => 1700000000000000000;
     Migrate.Exec := fun d _ => (d, None) |}.

Definition fresh_db : SQLite.SqliteDB :=
  {| SQLite.migrations_table := None; SQLite.master := []; SQLite.readonly := false |}.

(** A database opened read-only whose history table exists and is empty. *)
Definition readonly_db : SQLite.SqliteDB :=
  {| SQLite.migrations_table := Some []; SQLite.master := []; SQLite.readonly := true |}.

Definition with_history (rows : list SQLite.Row) : SQLite.SqliteDB :=
  {| SQLite.migrations_table := Some rows; SQLite.master := [];
     SQLite.readonly := false |}.

Definition world (d : SQLite.SqliteDB) : Migrate.World SQLite.SqliteDB :=
  {| Migrate.db := d; Migrate.logged := [] |}.

(** A Go migration that creates the table [name]. *)
Definition create_table (name : string) : Migrate.CommandFunc SQLite.SqliteDB :=
  fun d =>
    ({| SQLite.migrations_table := SQLite.migrations_table d;
        SQLite.master := (SQLite.master d ++ [("table", name)])%list;
        SQLite.readonly := SQLite.readonly d |}, None).

(** A Go migration that fails with [msg]. *)
Definition failing (msg : string) : Migrate.CommandFunc SQLite.SqliteDB :=
  fun d => (d, Some msg).

Definition go (version description : string)
    (execute : Migrate.CommandFunc SQLite.SqliteDB)
    : Migrate.Migration SQLite.SqliteDB :=
  {| Migrate.Rank := 0; Migrate.Version := version;
     Migrate.Description := description; Migrate.Type_ := Migrate.TypeGo;
     Migrate.Checksum := EmptyString; Migrate.Date := 0;
     Migrate.ExecutionTime := 0; Migrate.Status := EmptyString;
     Migrate.Execute := Some execute |}.

(** A repeatable migration with a given checksum. *)
Definition view (description checksum : string)
    : Migrate.Migration SQLite.SqliteDB :=
  {| Migrate.Rank := 0; Migrate.Version := Migrate.VersionRepeatable;
     Migrate.Description := description; Migrate.Type_ := Migrate.TypeSQL;
     Migrate.Checksum := checksum; Migrate.Date := 0;
     Migrate.ExecutionTime := 0; Migrate.Status := EmptyString;
     Migrate.Execute := Some (create_table description) |}.

(** The migrator after the calls of [Add] for [migs], in that order. *)
Definition registry (migs : list (Migrate.Migration SQLite.SqliteDB))
    : Migrate.Migrator SQLite.SqliteDB :=
  fold_left Migrate.Add migs (Migrate.NewMigrator SQLite.SQLiteSupport).

Definition row (rank : Z) (version description checksum status : string)
    : SQLite.Row :=
  {| SQLite.r_rank := rank; SQLite.r_version := version;
     SQLite.r_description := description; SQLite.r_type := Migrate.TypeSQL;
     SQLite.r_checksum := checksum; SQLite.r_date := 1700000000;
     SQLite.r_execution_time := 3; SQLite.r_status := status |}.

(** Two sequential migrations registered in descending order of version. *)
Definition out_of_order : Migrate.Migrator SQLite.SqliteDB :=
  registry [go "2" "orders" (create_table "orders");
            go "1" "users" (create_table "users")].

(** Sequential migrations in ascending order and a repeatable one. *)
Definition in_order : Migrate.Migrator SQLite.SqliteDB :=
  registry [go "1" "users" (create_table "users");
            go "2" "orders" (create_table "orders");
            view "totals" "0cc175b9c0f1b6a831c399e269772661";
            go "3" "items" (create_table "items")].

(** Two repeatable migrations registered under one description. *)
Definition same_description : Migrate.Migrator SQLite.SqliteDB :=
  registry [view "totals" "0cc175b9c0f1b6a831c399e269772661";
            view "totals" "92eb5ffee6ae2fec3ad71c777531578f"].

(** A connection whose [Exec] rejects the statement [BAD;] and records
    every other statement as a table of that name. *)
Definition conn1 : Migrate.Conn SQLite.SqliteDB :=
  {| Migrate.Now := fun _ => 1700000000000000000;
     Migrate.Exec := fun d stmt =>
       if String.eqb stmt "BAD;" then (d, Some "near BAD: syntax error")
       else create_table stmt d |}.

(** Three sequential migrations, the callable of the second failing. *)
Definition second_fails : Migrate.Migrator SQLite.SqliteDB :=
  registry [go "1" "users" (create_table "users");
            go "2" "orders" (failing "no such table: customers");
            go "3" "items" (create_table "items")].

(** A database with a view, a table and one migration in its history. *)
Definition populated_db : SQLite.SqliteDB :=
  {| SQLite.migrations_table := Some [row 1 "1" "users" EmptyString Migrate.StatusSuccess];
     SQLite.master := [("view", "totals"); ("table", "users"); ("index", "users_pk")];
     SQLite.readonly := false |}.

End Inputs.

(** * Properties *)

(** ** Strings *)

Module StringFacts.
Import GoStd.

Lemma append_nil_l (s : string) : EmptyString +:+ s = s.
Proof. reflexivity. Qed.

Lemma append_cons (c : ascii) (s t : string) : String c s +:+ t = String c (s +:+ t).
Proof. reflexivity. Qed.

Lemma append_nil_r (s : string) : s +:+ EmptyString = s.
Proof.
  induction s as [|c s IH]; [reflexivity |]. now rewrite append_cons, IH.
Qed.

Lemma append_assoc (a b c : string) : (a +:+ b) +:+ c = a +:+ b +:+ c.
Proof.
  induction a as [|x a IH]; [reflexivity |]. now rewrite !append_cons, IH.
Qed.

Lemma append_eq_nil (a b : string) :
  a +:+ b = EmptyString -> a = EmptyString /\ b = EmptyString.
Proof. destruct a; [auto | rewrite append_cons; discriminate]. Qed.

Lemma eqb_nil_length (s : string) :
  String.eqb s EmptyString = (String.length s =? 0)%nat.
Proof. destruct s; reflexivity. Qed.

Lemma HasSuffix_cons (c : ascii) (s suffix : string) :
  HasSuffix (String c s) suffix
  = String.eqb (String c s) suffix || HasSuffix s suffix.
Proof. reflexivity. Qed.

Lemma HasSuffix_nil (suffix : string) :
  HasSuffix EmptyString suffix = String.eqb EmptyString suffix.
Proof. unfold HasSuffix. apply orb_false_r. Qed.

Lemma HasSuffix_iff (s suffix : string) :
  HasSuffix s suffix = true <-> exists p, s = p +:+ suffix.
Proof.
  induction s as [|c s IH].
  - rewrite HasSuffix_nil. split.
    + intros E. apply String.eqb_eq in E. subst. now exists EmptyString.
    + intros [p E]. symmetry in E. apply append_eq_nil in E as [_ ->]. reflexivity.
  - rewrite HasSuffix_cons, orb_true_iff, IH. split.
    + intros [E | [p E]].
      * apply String.eqb_eq in E. exists EmptyString. exact E.
      * exists (String c p). rewrite append_cons. now rewrite E.
    + intros [[|x p] E].
      * left. apply String.eqb_eq. exact E.
      * right. exists p. rewrite append_cons in E. now inversion E.
Qed.

Lemma HasSuffix_app (p s suffix : string) :
  HasSuffix s suffix = true -> HasSuffix (p +:+ s) suffix = true.
Proof.
  rewrite !HasSuffix_iff. intros [q ->]. exists (p +:+ q). now rewrite append_assoc.
Qed.

Lemma HasSuffix_weaken (s a b : string) :
  HasSuffix s (a +:+ b) = true -> HasSuffix s b = true.
Proof.
  rewrite !HasSuffix_iff. intros [q ->]. exists (q +:+ a). now rewrite append_assoc.
Qed.

Lemma HasSuffix_nil_false (c : ascii) (suffix : string) :
  HasSuffix EmptyString (String c suffix) = false.
Proof. reflexivity. Qed.

End StringFacts.

(** ** The scanner *)

Module ScannerFacts.
Import GoStd StringFacts SplitterSpec.

Lemma split_nl_app (a b : string) :
  split_nl (a +:+ String NL b)
  = (fst (split_nl a), (snd (split_nl a) ++ fst (split_nl b) :: snd (split_nl b))%list).
Proof.
  induction a as [|c a IH].
  - rewrite append_nil_l. cbn [split_nl]. destruct (split_nl b) as [p ps].
    reflexivity.
  - rewrite append_cons. cbn [split_nl]. rewrite IH.
    destruct (split_nl a) as [p ps]. cbn [fst snd].
    destruct (Ascii.eqb c NL); reflexivity.
Qed.

Lemma drop_empty_last_app (xs : list string) (y : string) (ys : list string) :
  drop_empty_last (xs ++ y :: ys)%list = (xs ++ drop_empty_last (y :: ys))%list.
Proof.
  induction xs as [|x xs IH]; [reflexivity |].
  change ((x :: xs) ++ y :: ys)%list with (x :: (xs ++ y :: ys))%list.
  destruct xs as [|x' xs]; cbn [app drop_empty_last] in *; now rewrite ?IH.
Qed.

Lemma raw_lines_nl (a : string) :
  raw_lines (a +:+ nl) = fst (split_nl a) :: snd (split_nl a).
Proof.
  unfold raw_lines, nl. rewrite split_nl_app. cbn [split_nl fst snd].
  rewrite app_comm_cons, drop_empty_last_app. cbn. now rewrite app_nil_r.
Qed.

Lemma raw_lines_app (a b : string) :
  raw_lines (a +:+ nl +:+ b) = (raw_lines (a +:+ nl) ++ raw_lines b)%list.
Proof.
  rewrite raw_lines_nl. unfold raw_lines, nl.
  change (String NL EmptyString +:+ b) with (String NL b).
  rewrite split_nl_app. destruct (split_nl b) as [p ps]. cbn [fst snd].
  now rewrite app_comm_cons, drop_empty_last_app.
Qed.

Lemma whole_lines_inv (s : string) :
  whole_lines s = true -> s = EmptyString \/ exists a, s = a +:+ nl.
Proof.
  unfold whole_lines. rewrite orb_true_iff. intros [E | E].
  - left. now apply String.eqb_eq.
  - right. now apply HasSuffix_iff.
Qed.

Lemma scan_while_app (xs ys : list string) :
  scan_while (xs ++ ys)%list
  = (scan_while xs ++ (if forallb fits xs then scan_while ys else []))%list.
Proof.
  induction xs as [|x xs IH]; cbn [app scan_while forallb].
  - reflexivity.
  - destruct (fits x); cbn [andb]; [now rewrite IH | reflexivity].
Qed.

(** Reading [head] and then [frag], when [frag] starts a line of its own:
    the lines of [head], followed by those of [frag] unless the scanner
    gave up inside [head]. *)
Lemma ScanLines_app (head frag : string) :
  whole_lines head = true ->
  exists tl, ScanLines (head +:+ frag) = (ScanLines head ++ tl)%list
             /\ (tl = [] \/ tl = ScanLines frag).
Proof.
  intros Hw. destruct (whole_lines_inv _ Hw) as [-> | [a ->]].
  - exists (ScanLines frag). split; [reflexivity | now right].
  - unfold ScanLines. rewrite append_assoc, raw_lines_app, scan_while_app, map_app.
    eexists. split; [reflexivity |].
    destruct (forallb fits (raw_lines (a +:+ nl))); [now right | now left].
Qed.

End ScannerFacts.

(** ** The statement builder and the splitter loop *)

Module SplitterProps.
Import GoStd Splitter StringFacts SplitterSpec ScannerFacts.

Lemma Append_fresh (b : StatementBuilder) (line : string) :
  buffer b = EmptyString ->
  Append b line
  = {| createTrigger := MatchString createTriggerRE (TrimSpace line);
       terminated :=
         if MatchString createTriggerRE (TrimSpace line)
         then HasSuffix (TrimSpace line) "END;"
         else HasSuffix (TrimSpace line) ";";
       buffer := TrimSpace line |}.
Proof. intros E. unfold Append. rewrite E. reflexivity. Qed.

Lemma Append_more (b : StatementBuilder) (line : string) :
  buffer b <> EmptyString ->
  Append b line
  = {| createTrigger := createTrigger b;
       terminated :=
         if createTrigger b
         then HasSuffix (TrimSpace line) "END;"
         else HasSuffix (TrimSpace line) ";";
       buffer := buffer b +:+ nl +:+ TrimSpace line |}.
Proof.
  intros E. unfold Append. destruct (buffer b) as [|c s] eqn:Eb; [congruence |].
  cbn [String.length Nat.eqb]. now rewrite append_assoc.
Qed.

(** A terminated builder holds a statement that ends with a semicolon,
    and with [END;] in trigger mode. *)
Lemma Append_terminated (b : StatementBuilder) (line : string) :
  IsTerminated (Append b line) = true ->
  HasSuffix (Statement (Append b line))
    (if createTrigger (Append b line) then "END;" else ";") = true.
Proof.
  unfold IsTerminated, Statement, Append. cbn [terminated buffer createTrigger].
  intros Ht. apply HasSuffix_app.
  destruct (if (String.length (buffer b) =? 0)%nat
            then MatchString createTriggerRE (TrimSpace line)
            else createTrigger b); exact Ht.
Qed.

Lemma terminator_semicolon (s : string) (trigger : bool) :
  HasSuffix s (if trigger then "END;" else ";") = true -> HasSuffix s ";" = true.
Proof.
  destruct trigger; [| auto]. apply (HasSuffix_weaken s "END" ";").
Qed.

Lemma scan_loop_app (xs ys : list string) (b : StatementBuilder) (ss : list string) :
  scan_loop (xs ++ ys) b ss
  = scan_loop ys (snd (scan_loop xs b ss)) (fst (scan_loop xs b ss)).
Proof.
  revert b ss. induction xs as [|x xs IH]; intros b ss; [reflexivity |].
  cbn [app scan_loop]. destruct (IsTerminated (Append b x)); apply IH.
Qed.

Lemma scan_loop_acc (ls : list string) (b : StatementBuilder) (ss : list string) :
  scan_loop ls b ss
  = ((ss ++ fst (scan_loop ls b []))%list, snd (scan_loop ls b [])).
Proof.
  revert b ss. induction ls as [|l ls IH]; intros b ss; cbn [scan_loop fst snd].
  - now rewrite app_nil_r.
  - destruct (IsTerminated (Append b l)).
    + rewrite (IH _ (ss ++ _)%list), (IH _ ([] ++ _)%list). cbn [fst snd app].
      now rewrite <- app_assoc.
    + apply IH.
Qed.

Lemma scan_loop_terminated (ls : list string) (b : StatementBuilder) (ss : list string) :
  Forall (fun stmt => HasSuffix stmt ";" = true) ss ->
  Forall (fun stmt => HasSuffix stmt ";" = true) (fst (scan_loop ls b ss)).
Proof.
  revert b ss. induction ls as [|l ls IH]; intros b ss Hss; [exact Hss |].
  cbn [scan_loop]. destruct (IsTerminated (Append b l)) eqn:Ht.
  - apply IH. apply Forall_app. split; [exact Hss |].
    constructor; [| constructor].
    apply Append_terminated in Ht. eapply terminator_semicolon, Ht.
  - now apply IH.
Qed.

Lemma awaited_blank (b : StatementBuilder) (l : string) (ls : list string) :
  buffer b = EmptyString -> blank l = true ->
  awaited (Append b l) ls = awaited b (l :: ls).
Proof.
  intros Eb Hl. unfold awaited. rewrite Append_fresh by exact Eb.
  cbn [buffer first_nonblank]. rewrite Eb, Hl. unfold blank in Hl. now rewrite Hl.
Qed.

Lemma awaited_first (b : StatementBuilder) (l : string) (ls : list string) :
  buffer b = EmptyString -> blank l = false ->
  awaited (Append b l) ls = awaited b (l :: ls)
  /\ createTrigger (Append b l) = MatchString createTriggerRE (TrimSpace l).
Proof.
  intros Eb Hl. unfold awaited. rewrite Append_fresh by exact Eb.
  cbn [buffer createTrigger first_nonblank]. rewrite Eb, Hl.
  unfold blank in Hl. now rewrite Hl.
Qed.

Lemma awaited_more (b : StatementBuilder) (l : string) (ls : list string) :
  buffer b <> EmptyString ->
  awaited (Append b l) ls = awaited b (l :: ls)
  /\ createTrigger (Append b l) = createTrigger b
  /\ buffer (Append b l) <> EmptyString.
Proof.
  intros Eb. unfold awaited. rewrite Append_more by exact Eb.
  cbn [buffer createTrigger].
  assert (Hne : buffer b +:+ nl +:+ TrimSpace l <> EmptyString).
  { intros E. now apply append_eq_nil in E as [E _]. }
  repeat split; [| exact Hne].
  apply String.eqb_neq in Eb, Hne. now rewrite Eb, Hne.
Qed.

Lemma terminated_awaited (b : StatementBuilder) (l : string) (ls : list string) :
  HasSuffix (TrimSpace l) (awaited b (l :: ls)) = false ->
  IsTerminated (Append b l) = false
  /\ awaited (Append b l) ls = awaited b (l :: ls).
Proof.
  intros Hl. destruct (String.eqb (buffer b) EmptyString) eqn:Eb.
  - apply String.eqb_eq in Eb. destruct (blank l) eqn:Hb.
    + split; [| now apply awaited_blank].
      rewrite Append_fresh by exact Eb. unfold IsTerminated. cbn [terminated].
      unfold blank in Hb. apply String.eqb_eq in Hb. rewrite Hb.
      now destruct (MatchString createTriggerRE EmptyString).
    + destruct (awaited_first b l ls Eb Hb) as [Ha Ht]. split; [| exact Ha].
      rewrite Append_fresh by exact Eb. unfold IsTerminated. cbn [terminated].
      unfold awaited in Hl. cbn [first_nonblank] in Hl.
      rewrite Hb in Hl. apply String.eqb_eq in Eb as Eb'. rewrite Eb' in Hl.
      destruct (MatchString createTriggerRE (TrimSpace l)); exact Hl.
  - apply String.eqb_neq in Eb. destruct (awaited_more b l ls Eb) as (Ha & Ht & _).
    split; [| exact Ha].
    rewrite Append_more by exact Eb. unfold IsTerminated. cbn [terminated].
    unfold awaited in Hl. apply String.eqb_neq in Eb. rewrite Eb in Hl.
    destruct (createTrigger b); exact Hl.
Qed.

(** Lines that never show the awaited terminator add no statement. *)
Lemma scan_loop_unterminated (ls : list string) (b : StatementBuilder) (ss : list string) :
  Forall (fun l => HasSuffix (TrimSpace l) (awaited b ls) = false) ls ->
  fst (scan_loop ls b ss) = ss.
Proof.
  revert b. induction ls as [|l ls IH]; intros b Hls; [reflexivity |].
  inversion Hls as [|? ? Hl Hrest]; subst.
  destruct (terminated_awaited b l ls Hl) as [Ht Ha].
  cbn [scan_loop]. rewrite Ht. apply IH. rewrite Ha. exact Hrest.
Qed.

(** C8.  The splitter never emits an unterminated trailing fragment.
    Let [frag] be text at the end of the input, starting a line of its
    own, none of whose lines ends with the terminator awaited when it is
    read ([END;] in trigger mode, a semicolon otherwise).  Then [frag] is
    dropped: the statements are those of the input without it; and every
    statement that is returned ends with a semicolon. *)
Theorem Statements_drops_unterminated (head frag : string) :
  whole_lines head = true ->
  Forall (fun l => HasSuffix (TrimSpace l)
                     (awaited (builder_after head) (ScanLines frag)) = false)
         (ScanLines frag) ->
  Statements (head +:+ frag) = Statements head
  /\ Forall (fun stmt => HasSuffix stmt ";" = true) (Statements (head +:+ frag)).
Proof.
  intros Hw Hfrag. split.
  - destruct (ScanLines_app head frag Hw) as (tl & E & [-> | ->]).
    + unfold Statements. now rewrite E, app_nil_r.
    + unfold Statements. rewrite E, scan_loop_app.
      now apply scan_loop_unterminated.
  - apply scan_loop_terminated. constructor.
Qed.

Lemma join_nl_cons (x y : string) (ys : list string) :
  join_nl (x :: y :: ys) = x +:+ nl +:+ join_nl (y :: ys).
Proof. reflexivity. Qed.

Lemma scan_loop_blanks (blanks ls : list string) (b : StatementBuilder)
    (ss : list string) :
  buffer b = EmptyString ->
  Forall (fun l => blank l = true) blanks ->
  exists b', buffer b' = EmptyString
             /\ scan_loop (blanks ++ ls) b ss = scan_loop ls b' ss.
Proof.
  revert b. induction blanks as [|l blanks IH]; intros b Eb Hbl.
  - now exists b.
  - inversion Hbl as [|? ? Hl Hrest]; subst.
    unfold blank in Hl. apply String.eqb_eq in Hl.
    cbn [app scan_loop]. rewrite Append_fresh by exact Eb.
    unfold IsTerminated. cbn [terminated]. rewrite Hl.
    replace (if MatchString createTriggerRE EmptyString
             then HasSuffix EmptyString "END;" else HasSuffix EmptyString ";")
      with false by now destruct (MatchString createTriggerRE EmptyString).
    apply IH; [reflexivity | exact Hrest].
Qed.

(** In trigger mode, with a statement under way, the lines up to the
    first one that ends with [END;] complete that statement. *)
Lemma scan_loop_trigger_body (pre : list string) (le : string)
    (rest : list string) (b : StatementBuilder) (ss : list string) :
  buffer b <> EmptyString -> createTrigger b = true ->
  Forall (fun l => HasSuffix (TrimSpace l) "END;" = false) pre ->
  HasSuffix (TrimSpace le) "END;" = true ->
  scan_loop (pre ++ le :: rest) b ss
  = scan_loop rest NewStatementBuilder
      (ss ++ [buffer b +:+ nl +:+ join_nl (map TrimSpace (pre ++ [le]))]).
Proof.
  revert b. induction pre as [|p pre IH]; intros b Eb Ht Hpre Hle.
  - cbn [app scan_loop map]. rewrite Append_more by exact Eb.
    unfold IsTerminated, Statement. cbn [terminated buffer]. now rewrite Ht, Hle.
  - inversion Hpre as [|? ? Hp Hrest]; subst.
    destruct (awaited_more b p [] Eb) as (_ & Ht' & Eb').
    cbn [app scan_loop]. 
    assert (Hnt : IsTerminated (Append b p) = false).
    { rewrite Append_more by exact Eb. unfold IsTerminated. cbn [terminated].
      now rewrite Ht. }
    rewrite Hnt, IH; [| exact Eb' | now rewrite Ht' | exact Hrest | exact Hle].
    do 2 f_equal. f_equal. rewrite Append_more by exact Eb. cbn [buffer].
    rewrite append_assoc. f_equal. 
    change (p :: pre ++ [le])%list with (p :: (pre ++ [le]))%list.
    destruct (pre ++ [le])%list as [|y ys] eqn:E.
    + now destruct pre.
    + cbn [map]. now rewrite join_nl_cons.
Qed.

(** The same from the start of a statement, where the first line that is
    not blank selects the mode. *)
Lemma scan_loop_trigger (pre : list string) (le : string)
    (rest : list string) (b : StatementBuilder) (ss : list string) :
  buffer b = EmptyString ->
  blank (hd le pre) = false ->
  MatchString createTriggerRE (TrimSpace (hd le pre)) = true ->
  Forall (fun l => HasSuffix (TrimSpace l) "END;" = false) pre ->
  HasSuffix (TrimSpace le) "END;" = true ->
  scan_loop (pre ++ le :: rest) b ss
  = scan_loop rest NewStatementBuilder
      (ss ++ [join_nl (map TrimSpace (pre ++ [le]))]).
Proof.
  intros Eb Hnb Hm Hpre Hle. destruct pre as [|p pre]; cbn [hd] in Hnb, Hm.
  - cbn [app scan_loop map join_nl]. rewrite Append_fresh by exact Eb.
    unfold IsTerminated, Statement. cbn [terminated buffer]. now rewrite Hm, Hle.
  - inversion Hpre as [|? ? Hp Hrest]; subst.
    cbn [app scan_loop].
    assert (Hnt : IsTerminated (Append b p) = false).
    { rewrite Append_fresh by exact Eb. unfold IsTerminated. cbn [terminated].
      now rewrite Hm. }
    rewrite Hnt, scan_loop_trigger_body; [| | | exact Hrest | exact Hle].
    + do 2 f_equal. f_equal. rewrite Append_fresh by exact Eb. cbn [buffer].
      change (p :: pre ++ [le])%list with (p :: (pre ++ [le]))%list.
      destruct (pre ++ [le])%list as [|y ys] eqn:E.
      * now destruct pre.
      * cbn [map]. now rewrite join_nl_cons.
    + rewrite Append_fresh by exact Eb. cbn [buffer].
      unfold blank in Hnb. now apply String.eqb_neq in Hnb.
    + rewrite Append_fresh by exact Eb. exact Hm.
Qed.

(** C9.  A trigger body is one statement.  Let the lines of the script be
    [before], then blank lines, then [pre] followed by [le], then [rest],
    where a statement starts after [before], the first of the lines
    [pre ++ [le]] is not blank and matches the CREATE TRIGGER expression,
    no line of [pre] ends with [END;] (they may end with a semicolon) and
    [le] does.  Then these lines give exactly one statement, the trimmed
    lines joined by newlines, between the statements of [before] and
    those of [rest]. *)
Theorem Statements_trigger (script : string) (before blanks pre : list string)
    (le : string) (rest : list string) :
  ScanLines script = (before ++ blanks ++ pre ++ le :: rest)%list ->
  buffer (snd (scan_loop before NewStatementBuilder [])) = EmptyString ->
  Forall (fun l => blank l = true) blanks ->
  blank (hd le pre) = false ->
  MatchString createTriggerRE (TrimSpace (hd le pre)) = true ->
  Forall (fun l => HasSuffix (TrimSpace l) "END;" = false) pre ->
  HasSuffix (TrimSpace le) "END;" = true ->
  Statements script
  = (fst (scan_loop before NewStatementBuilder [])
     ++ join_nl (map TrimSpace (pre ++ [le]))
     :: fst (scan_loop rest NewStatementBuilder []))%list.
Proof.
  intros Hs Eb Hbl Hnb Hm Hpre Hle. unfold Statements. rewrite Hs, scan_loop_app.
  destruct (scan_loop_blanks blanks (pre ++ le :: rest) _
              (fst (scan_loop before NewStatementBuilder [])) Eb Hbl)
    as (b' & Eb' & ->).
  rewrite (scan_loop_trigger pre le rest b' _ Eb' Hnb Hm Hpre Hle).
  rewrite scan_loop_acc. cbn [fst]. now rewrite <- app_assoc.
Qed.

End SplitterProps.

(** ** The test vectors of the package, and instances of the two theorems *)

Module SplitterTests.
Import GoStd Splitter SplitterSpec SplitterProps Inputs.

Example TestStatements_1 :
  Statements script1 = ["CREATE TABLE foo (bar PRIMARY KEY);"].
Proof. vm_compute. reflexivity. Qed.

Example TestStatements_2 :
  Statements script2
  = ["CREATE TABLE foo (bar PRIMARY KEY);"; "CREATE TABLE bar (baz PRIMARY KEY);"].
Proof. vm_compute. reflexivity. Qed.

Example TestStatements_3 :
  Statements script3
  = ["CREATE TRIGGER IF NOT EXISTS stream_version AFTER INSERT ON events" +:+ nl
     +:+ "FOR EACH ROW" +:+ nl +:+ "BEGIN" +:+ nl
     +:+ "UPDATE streams SET version = NEW.streamIndex+1 WHERE id=NEW.streamID;" +:+ nl
     +:+ "END;"].
Proof. vm_compute. reflexivity. Qed.

(** The expression is searched anywhere in the line, and is case
    sensitive. *)
Example createTrigger_anywhere :
  MatchString createTriggerRE "-- no CREATE TEMPORARY TRIGGER here" = true
  /\ MatchString createTriggerRE "create trigger t" = false
  /\ MatchString createTriggerRE "CREATE  TRIGGER t" = false.
Proof. vm_compute. auto. Qed.

(** The library functions on small inputs. *)
Example TrimSpace_examples :
  TrimSpace (tab3 +:+ "a b " +:+ String CR nl) = "a b"
  /\ TrimSpace (String "194" (String "160" "x")) = "x"
  /\ TrimSpace (String "226" (String "128" (String "168" EmptyString))) = EmptyString
  /\ TrimSpace (String "226" (String "128" (String "139" EmptyString)))
     = String "226" (String "128" (String "139" EmptyString)).
Proof. vm_compute. auto. Qed.

Example ScanLines_examples :
  ScanLines ("a" +:+ nl +:+ "b") = ["a"; "b"]
  /\ ScanLines ("a" +:+ String CR nl) = ["a"]
  /\ ScanLines nl = [EmptyString]
  /\ ScanLines EmptyString = []
  /\ ScanLines ("a" +:+ nl +:+ nl) = ["a"; EmptyString].
Proof. vm_compute. repeat split. Qed.

Example ParseInt_examples :
  ParseInt "20240101" = (20240101, false)
  /\ ParseInt "-7" = (-7, false) /\ ParseInt "+7" = (7, false)
  /\ ParseInt EmptyString = (0, true) /\ ParseInt "R" = (0, true)
  /\ ParseInt "1_000" = (0, true) /\ ParseInt "-" = (0, true)
  /\ ParseInt "9223372036854775808" = (9223372036854775807, true)
  /\ ParseInt "-9223372036854775808" = (-9223372036854775808, false)
  /\ ParseInt "-9223372036854775809" = (-9223372036854775808, true)
  /\ ParseInt "18446744073709551616" = (9223372036854775807, true)
  /\ ParseInt "9223372036854775807x" = (0, true)
  /\ ParseInt "99999999999999999999x" = (9223372036854775807, true)
  /\ ParseInt "-99999999999999999999x" = (-9223372036854775808, true)
  /\ ParseInt "x99999999999999999999" = (0, true).
Proof. vm_compute. repeat split. Qed.

Lemma Statements_drops_unterminated_witness :
  Statements (complete_head +:+ open_trigger) = Statements complete_head
  /\ Forall (fun stmt => HasSuffix stmt ";" = true)
       (Statements (complete_head +:+ open_trigger)).
Proof.
  apply (Statements_drops_unterminated complete_head open_trigger).
  - reflexivity.
  - vm_compute. repeat constructor.
Defined.

Lemma Statements_trigger_witness :
  Statements script3
  = ([] ++ join_nl (map TrimSpace (trigger_lines ++ [tab3 +:+ "END;"]))
        :: fst (scan_loop [tab3] NewStatementBuilder []))%list.
Proof.
  apply (Statements_trigger script3 [] [EmptyString] trigger_lines
           (tab3 +:+ "END;") [tab3]).
  - vm_compute. reflexivity.
  - reflexivity.
  - repeat constructor.
  - reflexivity.
  - vm_compute. reflexivity.
  - vm_compute. repeat constructor.
  - vm_compute. reflexivity.
Defined.

End SplitterTests.

(** ** The orchestrator, for every adapter *)

Module MigrateProps.
Import GoStd Migrate MigrateSpec StringFacts.

Section Generic.
Context {DB : Type} `{Conn DB}.

Implicit Types (m : Migrator DB) (mig : Migration DB) (w : World DB).

Lemma install_pending_where m lastInstalled migs rank w :
  install_pending m lastInstalled migs rank w
  = install_where m (fun mig => LEQ (Version mig) lastInstalled) note_installed
      migs rank w.
Proof.
  revert rank w. induction migs as [|mig rest IH]; intros rank w; [reflexivity |].
  cbn [install_pending install_where]. destruct (LEQ (Version mig) lastInstalled).
  - apply IH.
  - destruct (install m _ w) as [w' [err|]]; [reflexivity | apply IH].
Qed.

Lemma install_repeatable_where m checksums migs rank w :
  install_repeatable m checksums migs rank w
  = install_where m (unchanged checksums) note_repeatable migs rank w.
Proof.
  revert rank w. induction migs as [|mig rest IH]; intros rank w; [reflexivity |].
  cbn [install_repeatable install_where]. destruct (unchanged checksums mig).
  - apply IH.
  - destruct (install m _ w) as [w' [err|]]; [reflexivity | apply IH].
Qed.

(** *** Registration *)

Lemma NewMigrator_ok (s : Support DB) : registry_ok (NewMigrator s).
Proof. split; constructor. Qed.

Lemma Add_ok m mig : registry_ok m -> registry_ok (Add m mig).
Proof.
  intros [Hseq Hrep]. unfold Add. destruct (IsRepeatable mig) eqn:Hr; split;
    cbn [migrations repeatable]; auto; apply Forall_app; split; auto.
Qed.

Lemma Add_support m mig : support (Add m mig) = support m.
Proof. unfold Add. now destruct (IsRepeatable mig). Qed.

(** *** Errors of the adapter *)

Lemma read_history_exists_error m w d b e :
  ExistsMigrationsTable (support m) (db w) = (d, (b, Some e)) ->
  read_history m w = (with_db w d, ([], Some e)).
Proof. intros E. unfold read_history. now rewrite E. Qed.

Lemma read_history_create_error m w d d' e :
  ExistsMigrationsTable (support m) (db w) = (d, (false, None)) ->
  CreateMigrationsTable (support m) d = (d', Some e) ->
  read_history m w = (with_db (with_db w d) d', ([], Some e)).
Proof. intros E1 E2. unfold read_history. rewrite E1. cbn [with_db db]. now rewrite E2. Qed.

Lemma read_history_list_error m w d ms e :
  ExistsMigrationsTable (support m) (db w) = (d, (true, None)) ->
  ListMigrations (support m) d = (d, (ms, Some e)) ->
  snd (snd (read_history m w)) = Some e.
Proof. intros E1 E2. unfold read_history. rewrite E1. cbn [with_db db]. now rewrite E2. Qed.

(** An error met while the history is read is what [Migrate] and
    [Baseline] return; [Clean] returns what the adapter returns; [install]
    returns an error when the write of the record fails. *)
Lemma adapter_errors_returned m w w1 ms e version description :
  read_history m w = (w1, (ms, Some e)) ->
  Migrate m w = (w1, Some e) /\ Baseline m version description w = (w1, Some e).
Proof. intros E. unfold Migrate, Baseline. now rewrite E. Qed.

Lemma Clean_returns_adapter_error m w :
  snd (Clean_ m w) = snd (Clean (support m) (db w)).
Proof. unfold Clean_. now destruct (Clean (support m) (db w)). Qed.

Lemma install_write_error m mig w (execute : CommandFunc DB) d err d' r :
  Execute mig = Some execute ->
  execute (db w) = (d, err) ->
  RecordMigration (support m) d
    (finished mig (Now (db w)) (since_ms (Now (db w)) (Now d))
       (match err with None => StatusSuccess | Some _ => StatusFailed end))
  = (d', Some r) ->
  snd (install m mig w) = Some ("record migration: " +:+ String_ mig +:+ ": " +:+ r).
Proof.
  intros He Hx Hr. unfold install. rewrite He. cbn [log db]. rewrite Hx, Hr.
  reflexivity.
Qed.

(** *** The scan of the history *)

Lemma scan_installed_failed (installed : list (Migration DB)) rank lastInstalled
    (checksums : gmap string string) :
  existsb failed_sequential installed = true ->
  exists err, scan_installed installed rank lastInstalled checksums = inl err.
Proof.
  revert rank lastInstalled checksums.
  induction installed as [|mig rest IH]; intros rank lastInstalled checksums Hex.
  - discriminate.
  - cbn [existsb] in Hex. cbn [scan_installed]. unfold failed_sequential in Hex.
    destruct (IsRepeatable mig); cbn [negb andb orb] in Hex.
    + now apply IH.
    + destruct (String.eqb (Status mig) StatusFailed); cbn [orb] in Hex.
      * eexists. reflexivity.
      * destruct (String.eqb (Status mig) StatusSuccess).
        -- now apply IH.
        -- eexists. reflexivity.
Qed.

Lemma scan_installed_checksums (installed : list (Migration DB)) rank lastInstalled
    (checksums : gmap string string) rank' lastInstalled' checksums' :
  scan_installed installed rank lastInstalled checksums
  = inr (rank', lastInstalled', checksums') ->
  forall description,
    checksums' !! description
    = match last_recorded installed description with
      | Some cs => Some cs
      | None => checksums !! description
      end.
Proof.
  revert rank lastInstalled checksums.
  induction installed as [|mig rest IH]; intros rank lastInstalled checksums Hs d.
  - cbn in Hs. now inversion Hs.
  - cbn [scan_installed] in Hs. cbn [last_recorded].
    destruct (IsRepeatable mig); cbn [andb].
    + rewrite (IH _ _ _ Hs d). destruct (last_recorded rest d); [reflexivity |].
      destruct (String.eqb_spec (Description mig) d) as [-> | Hne].
      * apply lookup_insert_eq.
      * now apply lookup_insert_ne.
    + destruct (String.eqb (Status mig) StatusFailed); [discriminate |].
      destruct (String.eqb (Status mig) StatusSuccess); [| discriminate].
      rewrite (IH _ _ _ Hs d). now destruct (last_recorded rest d).
Qed.

Lemma unchanged_last_recorded (installed : list (Migration DB)) rank lastInstalled
    checksums mig :
  scan_installed installed 0 VersionNone ∅ = inr (rank, lastInstalled, checksums) ->
  unchanged checksums mig = true
  <-> last_recorded installed (Description mig) = Some (Checksum mig).
Proof.
  intros Hs. unfold unchanged.
  rewrite (scan_installed_checksums _ _ _ _ _ _ _ Hs), lookup_empty.
  destruct (last_recorded installed (Description mig)) as [cs|].
  - rewrite String.eqb_eq. split; congruence.
  - split; discriminate.
Qed.

Lemma scan_installed_app (xs ys : list (Migration DB)) rank lastInstalled
    (checksums : gmap string string) :
  scan_installed (xs ++ ys) rank lastInstalled checksums
  = match scan_installed xs rank lastInstalled checksums with
    | inl err => inl err
    | inr (rank', lastInstalled', checksums') =>
        scan_installed ys rank' lastInstalled' checksums'
    end.
Proof.
  revert rank lastInstalled checksums.
  induction xs as [|mig xs IH]; intros rank lastInstalled checksums; [reflexivity |].
  cbn [app scan_installed]. destruct (IsRepeatable mig); [apply IH |].
  destruct (String.eqb (Status mig) StatusFailed); [reflexivity |].
  destruct (String.eqb (Status mig) StatusSuccess); [apply IH | reflexivity].
Qed.

Lemma scan_installed_rank (installed : list (Migration DB)) rank lastInstalled
    (checksums : gmap string string) rank' lastInstalled' checksums' :
  scan_installed installed rank lastInstalled checksums
  = inr (rank', lastInstalled', checksums') ->
  rank' = match last installed with Some mig => Rank mig | None => rank end.
Proof.
  revert rank lastInstalled checksums.
  induction installed as [|mig rest IH]; intros rank lastInstalled checksums Hs.
  - cbn in Hs. now inversion Hs.
  - cbn [scan_installed] in Hs.
    assert (Hl : match last (mig :: rest) with
                 | Some x => Rank x | None => rank end
                 = match last rest with Some x => Rank x | None => Rank mig end).
    { rewrite last_cons. now destruct (last rest). }
    rewrite Hl. destruct (IsRepeatable mig); [now apply IH in Hs |].
    destruct (String.eqb (Status mig) StatusFailed); [discriminate |].
    destruct (String.eqb (Status mig) StatusSuccess); [| discriminate].
    now apply IH in Hs.
Qed.

Lemma scan_installed_sequential (installed : list (Migration DB)) rank
    lastInstalled (checksums : gmap string string) :
  Forall (fun mig => IsRepeatable mig = false /\ Status mig = StatusSuccess)
    installed ->
  exists rank',
    scan_installed installed rank lastInstalled checksums
    = inr (rank', last_or (map Version installed) lastInstalled, checksums).
Proof.
  intros Hall. revert rank lastInstalled.
  induction Hall as [|mig rest [Hr Hst] _ IH]; intros rank lastInstalled.
  - now exists rank.
  - cbn [scan_installed map last_or]. rewrite Hr, Hst. cbn. apply IH.
Qed.

Lemma scan_installed_repeatable (installed : list (Migration DB)) rank
    lastInstalled (checksums : gmap string string) :
  Forall (fun mig => IsRepeatable mig = true) installed ->
  exists rank',
    scan_installed installed rank lastInstalled checksums
    = inr (rank', lastInstalled, record_all checksums (map entry installed)).
Proof.
  intros Hall. revert rank checksums.
  induction Hall as [|mig rest Hr _ IH]; intros rank checksums.
  - now exists rank.
  - cbn [scan_installed map record_all fold_left]. rewrite Hr. apply IH.
Qed.

(** C2.  A failed sequential record in the history stops [Migrate].  When
    the history that is read holds a record of a sequential migration with
    status failed, [Migrate] returns an error, whatever the registry; the
    state it leaves is the one reached by reading the history, and nothing
    has been logged: no migration was executed and no record written. *)
Theorem Migrate_failed_history m w w1 (installed : list (Migration DB)) :
  read_history m w = (w1, (installed, None)) ->
  existsb failed_sequential installed = true ->
  exists err, Migrate m w = (w1, Some err) /\ logged w1 = logged w.
Proof.
  intros Hr Hex. unfold Migrate. rewrite Hr.
  destruct (scan_installed_failed installed 0 VersionNone ∅ Hex) as [err ->].
  exists err. split; [reflexivity |].
  unfold read_history in Hr.
  destruct (ExistsMigrationsTable (support m) (db w)) as [d [ex [e|]]];
    [inversion Hr |].
  destruct ex.
  - destruct (ListMigrations (support m) (db (with_db w d))) as [d' [ms e]].
    now inversion Hr.
  - destruct (CreateMigrationsTable (support m) (db (with_db w d))) as [d' [e|]];
      [inversion Hr |].
    destruct (ListMigrations (support m) (db (with_db (with_db w d) d'))) as [d'' [ms e]].
    now inversion Hr.
Qed.

(** *** The repeatable loop *)

(** C4.  The gate of the repeatable loop.  Let [checksums] be the map the
    scan of the history [installed] builds.  When the loop reaches a
    registered repeatable migration, it skips it if the checksum last
    recorded for its description is the migration's, and installs it (next
    rank, then [install]) if no checksum is recorded for the description or
    the last one recorded differs. *)
Theorem repeatable_gate m (installed : list (Migration DB)) rank0 lastInstalled
    checksums mig rest rank w :
  scan_installed installed 0 VersionNone ∅ = inr (rank0, lastInstalled, checksums) ->
  (last_recorded installed (Description mig) = Some (Checksum mig) ->
   install_repeatable m checksums (mig :: rest) rank w
   = install_repeatable m checksums rest rank
       (log w "skipping repeatable migration: %s" [Description mig]))
  /\ (last_recorded installed (Description mig) = None
      \/ (exists cs, last_recorded installed (Description mig) = Some cs
                     /\ cs <> Checksum mig) ->
      install_repeatable m checksums (mig :: rest) rank w
      = match install m (with_rank mig (wrap64 (rank + 1))) w with
        | (w', Some err) => (w', wrap64 (rank + 1), Some err)
        | (w', None) =>
            install_repeatable m checksums rest (wrap64 (rank + 1)) w'
        end).
Proof.
  intros Hs. pose proof (unchanged_last_recorded installed _ _ _ mig Hs) as Hu.
  split.
  - intros Hl. apply Hu in Hl. cbn [install_repeatable]. now rewrite Hl.
  - intros Hl. assert (Hf : unchanged checksums mig = false).
    { apply not_true_is_false. intros E. apply Hu in E.
      destruct Hl as [Hl | (cs & Hl & Hne)]; congruence. }
    cbn [install_repeatable]. rewrite Hf.
    destruct (install m _ w) as [w' [err|]]; reflexivity.
Qed.

(** *** install *)

Lemma String_finished mig date elapsed status :
  String_ (finished mig date elapsed status) = String_ mig.
Proof. reflexivity. Qed.

(** C6, as the code has it.  When the callable fails and the write of the
    record fails too, [install] returns an error made of the migration's
    version, description and type and of the adapter's error: the error of
    the callable is not part of it. *)
Theorem install_record_error m mig w (execute : CommandFunc DB) d e d' r :
  Execute mig = Some execute ->
  execute (db w) = (d, Some e) ->
  RecordMigration (support m) d
    (finished mig (Now (db w)) (since_ms (Now (db w)) (Now d)) StatusFailed)
  = (d', Some r) ->
  install m mig w
  = (with_db (log w "installing: %s" [String_ mig]) d',
     Some ("record migration: " +:+ String_ mig +:+ ": " +:+ r)).
Proof.
  intros He Hx Hr. unfold install. rewrite He. cbn [log db]. rewrite Hx, Hr.
  reflexivity.
Qed.

(** *** The log does not steer the run *)

Lemma install_db m mig w1 w2 :
  db w1 = db w2 ->
  db (fst (install m mig w1)) = db (fst (install m mig w2))
  /\ snd (install m mig w1) = snd (install m mig w2).
Proof.
  intros E. unfold install. destruct (Execute mig) as [execute|]; [| now split].
  cbn [log db]. rewrite E. destruct (execute (db w2)) as [d err].
  destruct (RecordMigration (support m) d _) as [d' [r|]]; now split.
Qed.

Lemma install_where_db m skip note migs rank w1 w2 :
  db w1 = db w2 ->
  let r1 := install_where m skip note migs rank w1 in
  let r2 := install_where m skip note migs rank w2 in
  db (fst (fst r1)) = db (fst (fst r2))
  /\ snd (fst r1) = snd (fst r2) /\ snd r1 = snd r2.
Proof.
  revert rank w1 w2. induction migs as [|mig rest IH]; intros rank w1 w2 E.
  - now repeat split.
  - cbn [install_where]. destruct (skip mig).
    + now apply IH.
    + destruct (install_db m (with_rank mig (wrap64 (rank + 1))) w1 w2 E) as [Ed Ee].
      destruct (install m _ w1) as [w1' e1], (install m _ w2) as [w2' e2].
      cbn [fst snd] in Ed, Ee. subst e2. destruct e1 as [err|].
      * now repeat split.
      * now apply IH.
Qed.

Lemma install_where_app m skip note xs ys rank w :
  install_where m skip note (xs ++ ys) rank w
  = match install_where m skip note xs rank w with
    | (w', rank', Some err) => (w', rank', Some err)
    | (w', rank', None) => install_where m skip note ys rank' w'
    end.
Proof.
  revert rank w. induction xs as [|x xs IH]; intros rank w; [reflexivity |].
  cbn [app install_where]. destruct (skip x); [apply IH |].
  destruct (install m _ w) as [w' [err|]]; [reflexivity | apply IH].
Qed.

Lemma install_support m m' mig w :
  support m = support m' -> install m mig w = install m' mig w.
Proof. intros E. unfold install. now rewrite E. Qed.

Lemma install_where_support m m' skip note migs rank w :
  support m = support m' ->
  install_where m skip note migs rank w = install_where m' skip note migs rank w.
Proof.
  intros E. revert rank w. induction migs as [|mig rest IH]; intros rank w;
    [reflexivity |].
  cbn [install_where]. rewrite (install_support m m' _ _ E).
  destruct (skip mig); [apply IH |].
  destruct (install m' _ w) as [w' [err|]]; [reflexivity | apply IH].
Qed.

Lemma install_where_all_skipped m skip note migs rank w :
  Forall (fun mig => skip mig = true) migs ->
  install_where m skip note migs rank w
  = ({| db := db w; logged := logged w ++ map note migs |}, rank, None).
Proof.
  intros Hall. revert w. induction Hall as [|mig rest Hsk _ IH]; intros w.
  - cbn. rewrite app_nil_r. now destruct w.
  - cbn [install_where map]. rewrite Hsk, IH. cbn [log db logged].
    rewrite <- app_assoc. cbn [app]. now destruct (note mig).
Qed.

(** *** What the scan finds after a complete run *)

Lemma last_or_in {A : Type} (l : list A) (d : A) :
  last_or l d = d \/ In (last_or l d) l.
Proof.
  revert d. induction l as [|x l IH]; intros d; [now left |].
  cbn [last_or]. right. destruct (IH x) as [-> | Hin]; [now left | now right].
Qed.

Lemma lookup_record_all_notin (checksums : gmap string string)
    (entries : list (string * string)) (d : string) :
  ~ In d (map fst entries) ->
  record_all checksums entries !! d = checksums !! d.
Proof.
  revert checksums. induction entries as [|e entries IH]; intros checksums Hn;
    [reflexivity |].
  cbn [record_all fold_left]. cbn [map] in Hn.
  unfold record_all in IH. rewrite IH by (intros Hin; apply Hn; now right).
  apply lookup_insert_ne. intros E. apply Hn. now left.
Qed.

Lemma lookup_record_all_in (checksums : gmap string string)
    (entries : list (string * string)) (d c : string) :
  List.NoDup (map fst entries) -> In (d, c) entries ->
  record_all checksums entries !! d = Some c.
Proof.
  revert checksums. induction entries as [|e entries IH]; intros checksums Hnd Hin;
    [contradiction |].
  cbn [map] in Hnd. inversion Hnd as [|? ? Hne Hnd']; subst.
  cbn [record_all fold_left]. destruct Hin as [-> | Hin].
  - cbn [fst snd]. fold (record_all (<[d:=c]> checksums) entries).
    rewrite lookup_record_all_notin by exact Hne. apply lookup_insert_eq.
  - apply IH; assumption.
Qed.

Lemma NoDup_map_filter {A B : Type} (f : A -> B) (p : A -> bool) (l : list A) :
  List.NoDup (map f l) -> List.NoDup (map f (List.filter p l)).
Proof.
  induction l as [|x l IH]; intros Hnd; [constructor |].
  cbn [map] in Hnd. inversion Hnd as [|? ? Hne Hnd']; subst.
  cbn [List.filter]. destruct (p x); [| now apply IH].
  cbn [map]. constructor; [| now apply IH].
  intros Hin. apply Hne. apply in_map_iff in Hin as (y & <- & Hy).
  apply in_map. now apply List.filter_In in Hy as [Hy _].
Qed.

(** Once every repeatable migration that the gate let through has been
    recorded, the gate lets none through, provided the descriptions are
    pairwise distinct. *)
Lemma unchanged_after_run (checksums : gmap string string)
    (reps : list (Migration DB)) :
  List.NoDup (map Description reps) ->
  Forall (fun rep =>
            unchanged
              (record_all checksums
                 (map entry (List.filter (fun mig => negb (unchanged checksums mig))
                               reps)))
              rep = true) reps.
Proof.
  intros Hnd. apply Forall_forall. intros rep Hrep. apply list_elem_of_In in Hrep.
  set (run := List.filter (fun mig => negb (unchanged checksums mig)) reps).
  assert (Hrun : List.NoDup (map fst (map entry run))).
  { rewrite map_map. now apply (NoDup_map_filter Description). }
  destruct (unchanged checksums rep) eqn:Hu.
  - unfold unchanged in *. rewrite lookup_record_all_notin; [exact Hu |].
    rewrite map_map. intros Hin. apply in_map_iff in Hin as (q & Hq & Hqin).
    cbn [entry fst] in Hq. apply List.filter_In in Hqin as [Hqin Hqu].
    assert (q = rep) as ->.
    { clear -Hnd Hq Hqin Hrep. induction reps as [|x reps IH]; [contradiction |].
      cbn [map] in Hnd. inversion Hnd as [|? ? Hne Hnd']; subst.
      destruct Hqin as [-> | Hqin], Hrep as [<- | Hrep]; try reflexivity.
      - exfalso. apply Hne. rewrite Hq. now apply in_map.
      - exfalso. apply Hne. rewrite <- Hq. now apply in_map.
      - now apply IH. }
    unfold unchanged in Hqu. rewrite Hu in Hqu. discriminate.
  - unfold unchanged.
    rewrite (lookup_record_all_in _ _ (Description rep) (Checksum rep) Hrun).
    + apply String.eqb_refl.
    + apply (in_map entry). apply List.filter_In. split; [exact Hrep |].
      now rewrite Hu.
Qed.

(** *** Migrate as the scan followed by the two loops *)

Lemma Migrate_run_loops m w w1 (installed : list (Migration DB)) rank
    lastInstalled checksums :
  read_history m w = (w1, (installed, None)) ->
  scan_installed installed 0 VersionNone ∅ = inr (rank, lastInstalled, checksums) ->
  Migrate m w
  = run_loops m (migrations m) (repeatable m) rank lastInstalled checksums w1.
Proof.
  intros Hr Hs. unfold Migrate, run_loops. rewrite Hr, Hs.
  rewrite install_pending_where.
  destruct (install_where m _ note_installed _ rank w1) as [[w2 rank2] [err|]];
    [reflexivity |].
  now rewrite install_repeatable_where.
Qed.

Lemma run_loops_db m migs reps rank lastInstalled checksums w1 w2 :
  db w1 = db w2 ->
  db (fst (run_loops m migs reps rank lastInstalled checksums w1))
  = db (fst (run_loops m migs reps rank lastInstalled checksums w2))
  /\ snd (run_loops m migs reps rank lastInstalled checksums w1)
     = snd (run_loops m migs reps rank lastInstalled checksums w2).
Proof.
  intros E. unfold run_loops.
  pose proof (install_where_db m (fun mig => LEQ (Version mig) lastInstalled)
                note_installed migs rank w1 w2 E) as Hp.
  cbv zeta in Hp.
  destruct (install_where m _ note_installed migs rank w1) as [[x1 r1] e1],
           (install_where m _ note_installed migs rank w2) as [[x2 r2] e2].
  cbn [fst snd] in Hp. destruct Hp as (Ed & -> & ->).
  destruct e2 as [err|]; [now split |].
  pose proof (install_where_db m (unchanged checksums) note_repeatable
                reps r2 x1 x2 Ed) as Hq.
  cbv zeta in Hq.
  destruct (install_where m _ note_repeatable reps r2 x1) as [[y1 s1] f1],
           (install_where m _ note_repeatable reps r2 x2) as [[y2 s2] f2].
  cbn [fst snd] in Hq. destruct Hq as (Ed' & _ & ->).
  destruct f2; now split.
Qed.

Lemma run_loops_support m m' migs reps rank lastInstalled checksums w :
  support m = support m' ->
  run_loops m migs reps rank lastInstalled checksums w
  = run_loops m' migs reps rank lastInstalled checksums w.
Proof.
  intros E. unfold run_loops.
  rewrite (install_where_support m m' _ _ migs rank w E).
  destruct (install_where m' _ note_installed migs rank w) as [[x r] [err|]];
    [reflexivity |].
  now rewrite (install_where_support m m' _ _ reps r x E).
Qed.

(** A skipped migration might as well not be registered. *)
Lemma run_loops_skipped m pre mig post reps rank lastInstalled checksums w :
  LEQ (Version mig) lastInstalled = true ->
  db (fst (run_loops m (pre ++ mig :: post) reps rank lastInstalled checksums w))
  = db (fst (run_loops m (pre ++ post) reps rank lastInstalled checksums w))
  /\ snd (run_loops m (pre ++ mig :: post) reps rank lastInstalled checksums w)
     = snd (run_loops m (pre ++ post) reps rank lastInstalled checksums w).
Proof.
  intros Hle. unfold run_loops. rewrite !install_where_app.
  destruct (install_where m _ note_installed pre rank w) as [[x r] [err|]];
    [now split |].
  cbn [install_where]. rewrite Hle.
  pose proof (install_where_db m (fun mig => LEQ (Version mig) lastInstalled)
                note_installed post r
                (log x (fst (note_installed mig)) (snd (note_installed mig))) x
                eq_refl) as Hp.
  cbv zeta in Hp.
  destruct (install_where m _ note_installed post r (log x _ _)) as [[x1 r1] e1],
           (install_where m _ note_installed post r x) as [[x2 r2] e2].
  cbn [fst snd] in Hp. destruct Hp as (Ed & -> & ->).
  destruct e2 as [err|]; [now split |].
  pose proof (install_where_db m (unchanged checksums) note_repeatable
                reps r2 x1 x2 Ed) as Hq.
  cbv zeta in Hq.
  destruct (install_where m _ note_repeatable reps r2 x1) as [[y1 s1] f1],
           (install_where m _ note_repeatable reps r2 x2) as [[y2 s2] f2].
  cbn [fst snd] in Hq. destruct Hq as (Ed' & _ & ->).
  destruct f2; now split.
Qed.

(** C10, as the code has it.  Let the version last installed according to
    the history (the sentinel when the history has no sequential record, as
    when it is empty) have a numeric value of 0 or more.  Then a registered
    sequential migration whose version has a numeric value of 0 or less
    passes the skip test, and [Migrate] leaves the database and returns the
    error it would if the migration were not registered. *)
Theorem nonpositive_version_skipped m pre mig post w w1
    (installed : list (Migration DB)) rank lastInstalled checksums :
  migrations m = (pre ++ mig :: post)%list ->
  read_history m w = (w1, (installed, None)) ->
  scan_installed installed 0 VersionNone ∅ = inr (rank, lastInstalled, checksums) ->
  0 <= number lastInstalled ->
  number (Version mig) <= 0 ->
  LEQ (Version mig) lastInstalled = true
  /\ db (fst (Migrate m w)) = db (fst (Migrate (with_migrations m (pre ++ post)) w))
  /\ snd (Migrate m w) = snd (Migrate (with_migrations m (pre ++ post)) w).
Proof.
  intros Hm Hr Hs Hl Hv.
  assert (Hle : LEQ (Version mig) lastInstalled = true).
  { unfold LEQ, number in *. apply Z.leb_le. lia. }
  split; [exact Hle |].
  rewrite (Migrate_run_loops m w w1 installed _ _ _ Hr Hs).
  rewrite (Migrate_run_loops (with_migrations m (pre ++ post)) w w1 installed
             rank lastInstalled checksums); [| exact Hr | exact Hs].
  cbn [with_migrations migrations repeatable]. rewrite Hm.
  rewrite <- (run_loops_support m (with_migrations m (pre ++ post))) by reflexivity.
  now apply run_loops_skipped.
Qed.

End Generic.

End MigrateProps.

(** ** The orchestrator on the SQLite adapter *)

Module SQLiteProps.
Import GoStd Migrate MigrateSpec MigrateProps SQLite SQLiteSpec.

Section OnSQLite.
Context `{Conn SqliteDB}.

Implicit Types (m : Migrator SqliteDB) (mig : Migration SqliteDB)
  (w : World SqliteDB) (rows : list Row).

Lemma wrap64_small (x : Z) : - 2 ^ 63 <= x < 2 ^ 63 -> wrap64 x = x.
Proof. intros Hx. unfold wrap64. rewrite Z.mod_small; lia. Qed.

Lemma insert_row_last (r : Row) rows :
  Forall (fun x => r_rank x < r_rank r) rows ->
  insert_row r rows = Some (rows ++ [r]).
Proof.
  induction 1 as [|x rows Hx _ IH]; [reflexivity |].
  cbn [insert_row app].
  destruct (Z.ltb_spec (r_rank r) (r_rank x)); [lia |].
  destruct (Z.eqb_spec (r_rank r) (r_rank x)); [lia |].
  now rewrite IH.
Qed.

Lemma with_db_same w : with_db w (db w) = w.
Proof. now destruct w. Qed.

(** One install: either nothing is written and an error is returned, or
    the record of the migration is the new last row. *)
Lemma install_sqlite m mig w rows w' err :
  support m = SQLiteSupport ->
  preserves_table mig ->
  migrations_table (db w) = Some rows ->
  Forall (fun x => r_rank x < Rank mig) rows ->
  install m mig w = (w', err) ->
  (migrations_table (db w') = Some rows /\ err <> None)
  \/ (exists r, migrations_table (db w') = Some (rows ++ [r])
                /\ records mig r /\ r_rank r = Rank mig
                /\ (err = None -> r_status r = StatusSuccess)).
Proof.
  intros Hs Hp Ht Hr Hi. unfold install in Hi.
  destruct (Execute mig) as [execute|] eqn:He.
  - cbn [log db] in Hi. specialize (Hp execute (db w) He).
    destruct (execute (db w)) as [d e]. cbn [fst] in Hp. rewrite Ht in Hp.
    rewrite Hs in Hi. cbn [RecordMigration SQLiteSupport] in Hi.
    unfold sqliteRecordMigration in Hi. rewrite Hp in Hi.
    destruct (readonly d).
    + inversion Hi; subst. left. cbn [with_db db]. split; [exact Hp | discriminate].
    + rewrite insert_row_last in Hi by exact Hr.
      inversion Hi; subst. right. eexists. cbn [with_db db with_table migrations_table].
      split; [reflexivity |]. repeat split.
      intros ->. reflexivity.
  - inversion Hi; subst. left. split; [exact Ht | discriminate].
Qed.

Lemma preserves_with_rank mig rank :
  preserves_table mig -> preserves_table (with_rank mig rank).
Proof. intros Hp execute d He. exact (Hp execute d He). Qed.

Lemma Forall_le_snoc rows (r : Row) (rank : Z) :
  Forall (fun x => r_rank x <= rank) rows -> r_rank r = rank + 1 ->
  Forall (fun x => r_rank x <= rank + 1) (rows ++ [r]).
Proof.
  intros Hr Er. apply Forall_app. split.
  - eapply Forall_impl; [exact Hr |]. cbn. intros; lia.
  - constructor; [lia | constructor].
Qed.

(** One loop: the rows it adds are the records, in order and with the next
    ranks, of the first of the migrations that the test lets through; of
    all of them when the loop ends without error. *)
Lemma install_where_sqlite m skip note (migs : list (Migration SqliteDB)) :
  support m = SQLiteSupport ->
  forall rank w rows w' rank' err,
    Forall preserves_table migs ->
    migrations_table (db w) = Some rows ->
    Forall (fun x => r_rank x <= rank) rows ->
    - 2 ^ 63 <= rank + 1 ->
    rank + Z.of_nat (length migs) < 2 ^ 63 ->
    install_where m skip note migs rank w = (w', rank', err) ->
    exists recorded new rest,
      migrations_table (db w') = Some (rows ++ new)
      /\ List.filter (fun mig => negb (skip mig)) migs = recorded ++ rest
      /\ Forall2 records recorded new
      /\ map r_rank new = seqZ (rank + 1) (Z.of_nat (length new))
      /\ Forall (fun x => r_rank x <= rank') (rows ++ new)
      /\ rank <= rank' <= rank + Z.of_nat (length migs)
      /\ (err = None ->
          rest = [] /\ Forall (fun x => r_status x = StatusSuccess) new
          /\ rank' = rank + Z.of_nat (length new)).
Proof.
  intros Hs. induction migs as [|mig migs IH];
    intros rank w rows w' rank' err Hp Ht Hr Hlo Hhi Hrun.
  - cbn in Hrun. inversion Hrun; subst. exists [], [], [].
    rewrite app_nil_r. cbn. split_and!; auto; try lia.
    intros _. split_and!; auto. lia.
  - inversion Hp as [|? ? Hp1 Hp2]; subst.
    cbn [install_where] in Hrun. cbn [List.filter].
    rewrite length_cons, Nat2Z.inj_succ in Hhi |- *.
    destruct (skip mig); cbn [negb].
    + destruct (IH rank (log w (fst (note mig)) (snd (note mig))) rows w' rank' err
                  Hp2 Ht Hr Hlo ltac:(lia) Hrun)
        as (recorded & new & rest & H1 & H2 & H3 & H4 & H5 & H6 & H7).
      exists recorded, new, rest. split_and!; auto; lia.
    + rewrite wrap64_small in Hrun by lia.
      destruct (install m (with_rank mig (rank + 1)) w) as [w1 e1] eqn:Hi.
      assert (Hlt : Forall (fun x => r_rank x < Rank (with_rank mig (rank + 1))) rows).
      { eapply Forall_impl; [exact Hr |]. cbn. intros; lia. }
      destruct (install_sqlite m _ w rows w1 e1 Hs
                  (preserves_with_rank mig (rank + 1) Hp1) Ht Hlt Hi)
        as [[Ht1 Hne] | (r & Ht1 & Hrec & Hrk & Hst)].
      * destruct e1 as [e|]; [| congruence]. inversion Hrun; subst.
        exists [], [], (mig :: List.filter (fun mig => negb (skip mig)) migs).
        rewrite app_nil_r. cbn. split_and!; auto; try lia; try discriminate.
        eapply Forall_impl; [exact Hr |]. cbn. intros; lia.
      * cbn [with_rank Rank] in Hrk. destruct e1 as [e|].
        -- inversion Hrun; subst.
           exists [mig], [r], (List.filter (fun mig => negb (skip mig)) migs).
           split_and!; auto; try lia; try discriminate.
           ++ cbn. now rewrite Hrk.
           ++ now apply Forall_le_snoc.
        -- destruct (IH (rank + 1) w1 (rows ++ [r]) w' rank' err Hp2 Ht1
                       (Forall_le_snoc rows r rank Hr Hrk) ltac:(lia) ltac:(lia) Hrun)
             as (recorded & new & rest & H1 & H2 & H3 & H4 & H5 & H6 & H7).
           exists (mig :: recorded), (r :: new), rest.
           rewrite <- app_assoc in H1, H5. cbn [app] in H1, H5.
           split_and!; auto; try lia.
           ++ cbn [app]. now rewrite H2.
           ++ cbn [map length]. rewrite Nat2Z.inj_succ, seqZ_cons by lia.
              rewrite Hrk, H4. do 2 f_equal; lia.
           ++ intros E. destruct (H7 E) as (-> & Hst' & ->). split_and!.
              ** reflexivity.
              ** constructor; [now apply Hst | exact Hst'].
              ** cbn [length]. rewrite Nat2Z.inj_succ. lia.
Qed.

(** *** Reading the history *)

Lemma read_history_sqlite m w :
  support m = SQLiteSupport ->
  read_history m w
  = match migrations_table (db w) with
    | Some rows => (w, (map of_row rows, None))
    | None =>
        if readonly (db w) then (w, ([], Some errReadonly))
        else (with_db w (with_table (db w) (Some [])), ([], None))
    end.
Proof.
  intros Hs. unfold read_history. rewrite Hs.
  cbn [ExistsMigrationsTable CreateMigrationsTable ListMigrations SQLiteSupport].
  unfold sqliteExistsMigrationsTable, sqliteCreateMigrationsTable,
    sqliteListMigrations.
  cbn [db with_db]. destruct (migrations_table (db w)) as [rows|] eqn:Ht.
  - cbn [db with_db]. rewrite Ht. now destruct w.
  - destruct (readonly (db w)).
    + now destruct w.
    + cbn [db with_db with_table migrations_table]. reflexivity.
Qed.

Lemma scan_rows_rank rows rank lastInstalled checksums :
  scan_installed (map of_row rows) 0 VersionNone ∅
  = inr (rank, lastInstalled, checksums) ->
  rank = top_rank rows.
Proof.
  intros Hs. apply scan_installed_rank in Hs. unfold top_rank.
  rewrite fmap_last in Hs. now destruct (last rows).
Qed.

Lemma top_rank_snoc rows (r : Row) : top_rank (rows ++ [r]) = r_rank r.
Proof. unfold top_rank. now rewrite last_snoc. Qed.

Lemma by_rank_top rows :
  by_rank rows -> Forall (fun x => r_rank x <= top_rank rows) rows.
Proof.
  induction rows as [|x rest IH] using rev_ind; intros Hs; [constructor |].
  rewrite top_rank_snoc. apply Forall_app. split; [| constructor; [lia | constructor]].
  apply Forall_forall. intros y Hy. apply Z.lt_le_incl.
  apply (StronglySorted_app_1_elem_of _ rest [x] y x Hs Hy). set_solver.
Qed.

(** *** The two loops *)

Lemma run_loops_sqlite m migs reps rank lastInstalled checksums w rows :
  support m = SQLiteSupport ->
  Forall preserves_table migs -> Forall preserves_table reps ->
  migrations_table (db w) = Some rows ->
  Forall (fun x => r_rank x <= rank) rows ->
  - 2 ^ 63 <= rank + 1 ->
  rank + Z.of_nat (length migs + length reps) < 2 ^ 63 ->
  exists rec_seq new_seq rest_seq rec_rep new_rep rest_rep,
    migrations_table
      (db (fst (run_loops m migs reps rank lastInstalled checksums w)))
    = Some (rows ++ new_seq ++ new_rep)
    /\ List.filter (pending lastInstalled) migs = rec_seq ++ rest_seq
    /\ Forall2 records rec_seq new_seq
    /\ List.filter (fun mig => negb (unchanged checksums mig)) reps
       = rec_rep ++ rest_rep
    /\ Forall2 records rec_rep new_rep
    /\ map r_rank (new_seq ++ new_rep)
       = seqZ (rank + 1) (Z.of_nat (length (new_seq ++ new_rep)))
    /\ (snd (run_loops m migs reps rank lastInstalled checksums w) = None ->
        rest_seq = [] /\ rest_rep = []
        /\ Forall (fun x => r_status x = StatusSuccess) (new_seq ++ new_rep)).
Proof.
  intros Hs Hpm Hpr Ht Hr Hlo Hhi. rewrite Nat2Z.inj_add in Hhi. unfold run_loops.
  destruct (install_where m _ note_installed migs rank w) as [[w1 rank1] e1] eqn:H1.
  destruct (install_where_sqlite m _ _ migs Hs rank w rows w1 rank1 e1
              Hpm Ht Hr Hlo ltac:(lia) H1)
    as (rec_seq & new_seq & rest_seq & A1 & A2 & A3 & A4 & A5 & A6 & A7).
  destruct e1 as [err|].
  - exists rec_seq, new_seq, rest_seq, [],
      [], (List.filter (fun mig => negb (unchanged checksums mig)) reps).
    cbn [fst snd]. rewrite !app_nil_r. split_and!; auto; try discriminate.
  - destruct (A7 eq_refl) as (-> & Hst1 & ->).
    destruct (install_where m _ note_repeatable reps _ w1) as [[w2 rank2] e2] eqn:H2.
    destruct (install_where_sqlite m _ _ reps Hs _ w1 (rows ++ new_seq) w2 rank2 e2
                Hpr A1 A5 ltac:(lia) ltac:(lia) H2)
      as (rec_rep & new_rep & rest_rep & B1 & B2 & B3 & B4 & B5 & B6 & B7).
    exists rec_seq, new_seq, [], rec_rep, new_rep, rest_rep.
    assert (Hranks : map r_rank (new_seq ++ new_rep)
                     = seqZ (rank + 1) (Z.of_nat (length (new_seq ++ new_rep)))).
    { rewrite map_app, A4, B4, length_app, Nat2Z.inj_add, seqZ_app by lia.
      do 2 f_equal. lia. }
    rewrite <- app_assoc in B1.
    destruct e2 as [err|]; cbn [fst snd]; split_and!; auto; try discriminate.
    intros _. destruct (B7 eq_refl) as (-> & Hst2 & _).
    split_and!; auto. apply Forall_app. now split.
Qed.

(** *** Ranks *)

Lemma ranks_top rows (n : nat) :
  map r_rank rows = seqZ 1 (Z.of_nat n) ->
  top_rank rows = Z.of_nat n /\ Forall (fun x => r_rank x <= Z.of_nat n) rows.
Proof.
  intros Hr. split.
  - unfold top_rank. pose proof (fmap_last r_rank rows) as Hl.
    change (r_rank <$> rows) with (map r_rank rows) in Hl. rewrite Hr in Hl.
    destruct n as [|k].
    + cbn in Hl. now destruct (last rows).
    + rewrite seqZ_S, last_snoc in Hl. destruct (last rows) as [x|]; [| discriminate].
      cbn in Hl. injection Hl as Hl. rewrite <- Hl. lia.
  - apply Forall_forall. intros x Hx.
    assert (Hin : r_rank x ∈ seqZ 1 (Z.of_nat n)).
    { rewrite <- Hr. apply (list_elem_of_fmap_2 r_rank). exact Hx. }
    apply elem_of_seqZ in Hin. lia.
Qed.


(** *** The two loops on a writable database *)

(** One install on a writable database: without a callable nothing
    happens and an error is returned; with one, the install is logged and
    its record is the new last row, with the status of the outcome. *)
Lemma install_writable m mig w rows w' err :
  support m = SQLiteSupport ->
  preserves_table mig -> preserves_mode mig ->
  migrations_table (db w) = Some rows -> readonly (db w) = false ->
  Forall (fun x => r_rank x < Rank mig) rows ->
  install m mig w = (w', err) ->
  (Execute mig = None /\ w' = w /\ err <> None)
  \/ (exists r, migrations_table (db w') = Some (rows ++ [r])
                /\ readonly (db w') = false
                /\ logged w' = logged w ++ [installing mig]
                /\ records mig r /\ r_rank r = Rank mig
                /\ r_status r = match err with
                                | None => StatusSuccess
                                | Some _ => StatusFailed
                                end).
Proof.
  intros Hs Hp Hm Ht Hro Hr Hi. unfold install in Hi.
  destruct (Execute mig) as [execute|] eqn:He.
  - cbn [log db] in Hi. specialize (Hp execute (db w) He).
    specialize (Hm execute (db w) He).
    destruct (execute (db w)) as [d e]. cbn [fst] in Hp, Hm.
    rewrite Ht in Hp. rewrite Hro in Hm.
    rewrite Hs in Hi. cbn [RecordMigration SQLiteSupport] in Hi.
    unfold sqliteRecordMigration in Hi. rewrite Hp, Hm in Hi.
    rewrite insert_row_last in Hi by exact Hr.
    right.
    exists (to_row (finished mig (Now (db w)) (since_ms (Now (db w)) (Now d))
                      (match e with
                       | None => StatusSuccess
                       | Some _ => StatusFailed
                       end))).
    destruct e as [e|]; inversion Hi; subst;
      cbn [with_db db with_table migrations_table readonly logged log];
      split_and!; first [reflexivity | exact Hm | now unfold records].
  - inversion Hi; subst. left. split_and!; auto.
Qed.

Lemma preserves_mode_with_rank mig rank :
  preserves_mode mig -> preserves_mode (with_rank mig rank).
Proof. intros Hp execute d He. exact (Hp execute d He). Qed.

Lemma stopped_cons rest (r : Row) new : stopped rest new -> stopped rest (r :: new).
Proof.
  intros [(r0 & Hl & Hst) | Hn]; [left | now right].
  exists r0. split; [| exact Hst]. rewrite last_cons, Hl. reflexivity.
Qed.

(** One loop on a writable database: every migration the test lets
    through is installed, in order, until one fails; each install is
    logged and leaves its record, with the next rank, as the new last
    row. *)
Lemma install_where_writable m skip note (migs : list (Migration SqliteDB)) :
  support m = SQLiteSupport ->
  (forall mig, is_installing (note mig) = false) ->
  forall rank w rows w' rank' err,
    Forall preserves_table migs -> Forall preserves_mode migs ->
    migrations_table (db w) = Some rows -> readonly (db w) = false ->
    Forall (fun x => r_rank x <= rank) rows ->
    - 2 ^ 63 <= rank + 1 ->
    rank + Z.of_nat (length migs) < 2 ^ 63 ->
    install_where m skip note migs rank w = (w', rank', err) ->
    exists recorded new rest entries,
      migrations_table (db w') = Some (rows ++ new)
      /\ readonly (db w') = false
      /\ List.filter (fun mig => negb (skip mig)) migs = recorded ++ rest
      /\ Forall2 records recorded new
      /\ logged w' = logged w ++ entries
      /\ List.filter is_installing entries = map installing recorded
      /\ map r_rank new = seqZ (rank + 1) (Z.of_nat (length new))
      /\ Forall (fun x => r_rank x <= rank') (rows ++ new)
      /\ (err = None ->
          rest = [] /\ Forall (fun x => r_status x = StatusSuccess) new
          /\ rank' = rank + Z.of_nat (length new))
      /\ (err <> None -> stopped rest new).
Proof.
  intros Hs Hnote. induction migs as [|mig migs IH];
    intros rank w rows w' rank' err Hp Hm Ht Hro Hr Hlo Hhi Hrun.
  - cbn in Hrun. inversion Hrun; subst. exists [], [], [], [].
    rewrite !app_nil_r. cbn. split_and!; auto; try lia; try congruence.
    intros _. split_and!; auto. lia.
  - inversion Hp as [|? ? Hp1 Hp2]; subst.
    inversion Hm as [|? ? Hm1 Hm2]; subst.
    cbn [install_where] in Hrun. cbn [List.filter].
    rewrite length_cons, Nat2Z.inj_succ in Hhi.
    destruct (skip mig); cbn [negb].
    + destruct (IH rank (log w (fst (note mig)) (snd (note mig))) rows w' rank' err
                  Hp2 Hm2 Ht Hro Hr Hlo ltac:(lia) Hrun)
        as (recorded & new & rest & entries
            & H1 & H2 & H3 & H4 & H5 & H6 & H7 & H8 & H9 & H10).
      exists recorded, new, rest, (note mig :: entries).
      split_and!; auto.
      * rewrite H5. cbn [log logged]. rewrite <- app_assoc.
        now destruct (note mig).
      * cbn [List.filter]. now rewrite Hnote.
    + rewrite wrap64_small in Hrun by lia.
      destruct (install m (with_rank mig (rank + 1)) w) as [w1 e1] eqn:Hi.
      assert (Hlt : Forall (fun x => r_rank x < Rank (with_rank mig (rank + 1))) rows).
      { eapply Forall_impl; [exact Hr |]. cbn. intros; lia. }
      destruct (install_writable m _ w rows w1 e1 Hs
                  (preserves_with_rank mig (rank + 1) Hp1)
                  (preserves_mode_with_rank mig (rank + 1) Hm1) Ht Hro Hlt Hi)
        as [(Hex & -> & Hne) | (r & Ht1 & Hro1 & Hlog & Hrec & Hrk & Hst)].
      * destruct e1 as [e|]; [| congruence]. inversion Hrun; subst.
        exists [], [], (mig :: List.filter (fun mig => negb (skip mig)) migs), [].
        rewrite !app_nil_r. cbn. split_and!; auto; try lia; try discriminate.
        -- eapply Forall_impl; [exact Hr |]. cbn. intros; lia.
        -- intros _. right. now exists mig, (List.filter (fun mig => negb (skip mig)) migs).
      * cbn [with_rank Rank] in Hrk.
        change (installing (with_rank mig (rank + 1))) with (installing mig) in Hlog.
        destruct e1 as [e|].
        -- inversion Hrun; subst.
           exists [mig], [r], (List.filter (fun mig => negb (skip mig)) migs),
             [installing mig].
           split_and!; auto; try lia; try discriminate.
           ++ cbn. now rewrite Hrk.
           ++ now apply Forall_le_snoc.
           ++ intros _. left. now exists r.
        -- destruct (IH (rank + 1) w1 (rows ++ [r]) w' rank' err Hp2 Hm2 Ht1 Hro1
                       (Forall_le_snoc rows r rank Hr Hrk) ltac:(lia) ltac:(lia) Hrun)
             as (recorded & new & rest & entries
                 & H1 & H2 & H3 & H4 & H5 & H6 & H7 & H8 & H9 & H10).
           exists (mig :: recorded), (r :: new), rest, (installing mig :: entries).
           rewrite <- app_assoc in H1, H8. cbn [app] in H1, H8.
           split_and!; auto.
           ++ cbn [app]. now rewrite H3.
           ++ rewrite H5, Hlog, <- app_assoc. reflexivity.
           ++ cbn [List.filter map].
              change (is_installing (installing mig)) with true. cbv iota.
              now rewrite H6.
           ++ cbn [map length]. rewrite Nat2Z.inj_succ, seqZ_cons by lia.
              rewrite Hrk, H7. do 2 f_equal; lia.
           ++ intros E. destruct (H9 E) as (-> & Hst' & ->). split_and!.
              ** reflexivity.
              ** constructor; [exact Hst | exact Hst'].
              ** cbn [length]. rewrite Nat2Z.inj_succ. lia.
           ++ intros E. apply stopped_cons. now apply H10.
Qed.

Lemma stopped_app rest rest' new new' :
  stopped rest' new' -> stopped (rest' ++ rest) (new ++ new').
Proof.
  intros [(r & Hl & Hst) | (mig & rest0 & -> & Hex)].
  - left. exists r. split; [| exact Hst].
    destruct new' as [|x new'] using rev_ind; [discriminate |].
    rewrite app_assoc, last_snoc. rewrite last_snoc in Hl. exact Hl.
  - right. now exists mig, (rest0 ++ rest).
Qed.

(** The two loops on a writable database. *)
Lemma run_loops_writable m migs reps rank lastInstalled checksums w rows :
  support m = SQLiteSupport ->
  Forall preserves_table migs -> Forall preserves_table reps ->
  Forall preserves_mode migs -> Forall preserves_mode reps ->
  migrations_table (db w) = Some rows -> readonly (db w) = false ->
  Forall (fun x => r_rank x <= rank) rows ->
  - 2 ^ 63 <= rank + 1 ->
  rank + Z.of_nat (length migs + length reps) < 2 ^ 63 ->
  exists recorded new rest entries,
    migrations_table
      (db (fst (run_loops m migs reps rank lastInstalled checksums w)))
    = Some (rows ++ new)
    /\ List.filter (pending lastInstalled) migs
       ++ List.filter (changed checksums) reps = recorded ++ rest
    /\ Forall2 records recorded new
    /\ logged (fst (run_loops m migs reps rank lastInstalled checksums w))
       = logged w ++ entries
    /\ List.filter is_installing entries = map installing recorded
    /\ map r_rank new = seqZ (rank + 1) (Z.of_nat (length new))
    /\ (snd (run_loops m migs reps rank lastInstalled checksums w) = None ->
        rest = [] /\ Forall (fun x => r_status x = StatusSuccess) new)
    /\ (snd (run_loops m migs reps rank lastInstalled checksums w) <> None ->
        stopped rest new).
Proof.
  intros Hs Hpm Hpr Hmm Hmr Ht Hro Hr Hlo Hhi. rewrite Nat2Z.inj_add in Hhi.
  unfold run_loops.
  destruct (install_where m _ note_installed migs rank w) as [[w1 rank1] e1] eqn:H1.
  destruct (install_where_writable m _ note_installed migs Hs (fun _ => eq_refl)
              rank w rows w1 rank1 e1 Hpm Hmm Ht Hro Hr Hlo ltac:(lia) H1)
    as (rec_seq & new_seq & rest_seq & ent_seq
        & A1 & A2 & A3 & A4 & A5 & A6 & A7 & A8 & A9 & A10).
  fold (pending lastInstalled) in A3.
  destruct e1 as [err|].
  - exists rec_seq, new_seq, (rest_seq ++ List.filter (changed checksums) reps),
      ent_seq.
    cbn [fst snd]. split_and!; auto; try discriminate.
    + now rewrite A3, <- app_assoc.
    + intros _. rewrite <- (app_nil_l new_seq).
      apply stopped_app. apply A10. discriminate.
  - destruct (A9 eq_refl) as (-> & Hst1 & ->). rewrite app_nil_r in A3.
    assert (Hlen : (length new_seq <= length migs)%nat).
    { rewrite <- (Forall2_length _ _ _ A4), <- A3. apply List.filter_length_le. }
    destruct (install_where m _ note_repeatable reps _ w1) as [[w2 rank2] e2] eqn:H2.
    destruct (install_where_writable m _ note_repeatable reps Hs (fun _ => eq_refl)
                _ w1 (rows ++ new_seq) w2 rank2 e2
                Hpr Hmr A1 A2 A8 ltac:(lia) ltac:(lia) H2)
      as (rec_rep & new_rep & rest_rep & ent_rep
          & B1 & B2 & B3 & B4 & B5 & B6 & B7 & B8 & B9 & B10).
    fold (changed checksums) in B3.
    exists (rec_seq ++ rec_rep), (new_seq ++ new_rep), rest_rep,
      (ent_seq ++ ent_rep).
    rewrite <- app_assoc in B1.
    assert (Hranks : map r_rank (new_seq ++ new_rep)
                     = seqZ (rank + 1) (Z.of_nat (length (new_seq ++ new_rep)))).
    { rewrite map_app, A7, B7, length_app, Nat2Z.inj_add, seqZ_app by lia.
      do 2 f_equal. lia. }
    assert (Hlog : logged w2 = logged w ++ ent_seq ++ ent_rep).
    { now rewrite B5, A5, <- app_assoc. }
    assert (Hfil : List.filter is_installing (ent_seq ++ ent_rep)
                   = map installing (rec_seq ++ rec_rep)).
    { now rewrite List.filter_app, map_app, A6, B6. }
    assert (Hsplit : List.filter (pending lastInstalled) migs
                     ++ List.filter (changed checksums) reps
                     = (rec_seq ++ rec_rep) ++ rest_rep).
    { now rewrite A3, B3, <- app_assoc. }
    destruct e2 as [err|]; cbn [fst snd]; split_and!; auto;
      try discriminate; try (now apply Forall2_app).
    + intros _. rewrite <- (app_nil_r rest_rep).
      apply stopped_app. apply B10. discriminate.
    + intros _. destruct (B9 eq_refl) as (-> & Hst2 & _).
      split; [reflexivity |]. apply Forall_app. now split.
    + intros E. now contradiction E.
Qed.

(** C3.  Ranks count the installs.  On a writable database let the ranks
    in the history be 1 to [n] (none when the history is empty), the scan
    of the history end without error, leaving [lastInstalled] and
    [checksums], the callables leave the history table and the access mode
    alone, and the counter not overflow.  [Migrate] then installs the
    migrations its two tests let through, the sequential ones first and
    each list in registration order, up to the first that cannot be
    installed: [recorded] are the migrations whose install it announced, in
    that order, and [rest] the ones it did not reach.  Every announced
    install, failed ones included, leaves one record, the new records follow
    the old history in install order, and the ranks are then 1 to [n] plus
    the number of installs.  When nil is returned nothing is left over;
    when an error is returned the last install failed and is recorded as
    failed, or the first migration left over has no callable. *)
Theorem Migrate_ranks m w (n : nat) rank0 lastInstalled checksums :
  support m = SQLiteSupport ->
  Forall preserves_table (migrations m ++ repeatable m) ->
  Forall preserves_mode (migrations m ++ repeatable m) ->
  readonly (db w) = false ->
  map r_rank (history (db w)) = seqZ 1 (Z.of_nat n) ->
  Z.of_nat n + Z.of_nat (length (migrations m) + length (repeatable m)) < 2 ^ 63 ->
  scan_installed (map of_row (history (db w))) 0 VersionNone ∅
  = inr (rank0, lastInstalled, checksums) ->
  exists (recorded : list (Migration SqliteDB)) (new : list Row)
         (rest : list (Migration SqliteDB)) (entries : list LogCall),
    List.filter (pending lastInstalled) (migrations m)
    ++ List.filter (changed checksums) (repeatable m) = recorded ++ rest
    /\ logged (fst (Migrate m w)) = logged w ++ entries
    /\ List.filter is_installing entries = map installing recorded
    /\ history (db (fst (Migrate m w))) = history (db w) ++ new
    /\ Forall2 records recorded new
    /\ map r_rank (history (db w) ++ new)
       = seqZ 1 (Z.of_nat (n + length recorded))
    /\ (snd (Migrate m w) = None ->
        rest = [] /\ Forall (fun x => r_status x = StatusSuccess) new)
    /\ (snd (Migrate m w) <> None -> stopped rest new).
Proof.
  intros Hs Hp Hm Hro Hr Hhi Hscan.
  apply Forall_app in Hp as [Hpm Hpr]. apply Forall_app in Hm as [Hmm Hmr].
  pose proof (read_history_sqlite m w Hs) as Hrd.
  remember (history (db w)) as old eqn:Hold.
  destruct (ranks_top old n Hr) as [Htop Hle].
  assert (Hloops : forall w1,
             migrations_table (db w1) = Some old ->
             readonly (db w1) = false -> logged w1 = logged w ->
             Migrate m w
             = run_loops m (migrations m) (repeatable m) (Z.of_nat n)
                 lastInstalled checksums w1 ->
             exists (recorded : list (Migration SqliteDB)) (new : list Row)
                    (rest : list (Migration SqliteDB)) (entries : list LogCall),
               List.filter (pending lastInstalled) (migrations m)
               ++ List.filter (changed checksums) (repeatable m) = recorded ++ rest
               /\ logged (fst (Migrate m w)) = logged w ++ entries
               /\ List.filter is_installing entries = map installing recorded
               /\ history (db (fst (Migrate m w))) = old ++ new
               /\ Forall2 records recorded new
               /\ map r_rank (old ++ new) = seqZ 1 (Z.of_nat (n + length recorded))
               /\ (snd (Migrate m w) = None ->
                   rest = [] /\ Forall (fun x => r_status x = StatusSuccess) new)
               /\ (snd (Migrate m w) <> None -> stopped rest new)).
  { intros w1 Ht1 Hro1 Hlog1 ->.
    destruct (run_loops_writable m (migrations m) (repeatable m) (Z.of_nat n)
                lastInstalled checksums w1 old
                Hs Hpm Hpr Hmm Hmr Ht1 Hro1 Hle ltac:(lia) Hhi)
      as (recorded & new & rest & entries
          & A1 & A2 & A3 & A4 & A5 & A6 & A7 & A8).
    exists recorded, new, rest, entries.
    split_and!; auto.
    - now rewrite A4, Hlog1.
    - unfold history. now rewrite A1.
    - rewrite map_app, Hr, A6, (Forall2_length _ _ _ A3), Nat2Z.inj_add,
        seqZ_app by lia.
      do 2 f_equal. lia. }
  unfold history in Hold.
  destruct (migrations_table (db w)) as [rows|] eqn:Ht; subst old.
  - apply (Hloops w); auto.
    rewrite (Migrate_run_loops m w w _ _ _ _ Hrd Hscan).
    apply scan_rows_rank in Hscan. now rewrite Hscan, Htop.
  - rewrite Hro in Hrd. cbn in Hscan. injection Hscan as <- <- <-.
    assert (n = 0)%nat as -> by (unfold top_rank in Htop; cbn in Htop; lia).
    apply (Hloops (with_db w (with_table (db w) (Some [])))); auto.
    now rewrite (Migrate_run_loops m w _ [] 0 VersionNone ∅ Hrd eq_refl).
Qed.

(** *** Baseline *)





(** *** A second call *)

Lemma LEQ_le (a b : string) : LEQ a b = true <-> number a <= number b.
Proof. unfold LEQ, number. apply Z.leb_le. Qed.

Lemma pending_lt (lastInstalled : string) mig :
  pending lastInstalled mig = true <-> number lastInstalled < number (Version mig).
Proof.
  unfold pending. rewrite negb_true_iff, <- not_true_iff_false, LEQ_le. lia.
Qed.

Lemma last_pending_above (lastInstalled d : string)
    (migs : list (Migration SqliteDB)) :
  number lastInstalled <= number d ->
  number lastInstalled
  <= number (last_or (map Version (List.filter (pending lastInstalled) migs)) d).
Proof.
  intros Hd. destruct (last_or_in
                         (map Version (List.filter (pending lastInstalled) migs)) d)
    as [-> | Hin]; [exact Hd |].
  apply in_map_iff in Hin as (p & <- & Hp).
  apply List.filter_In in Hp as [_ Hp]. apply pending_lt in Hp. lia.
Qed.

(** After the pending migrations of a registry in ascending order have been
    installed, the version last installed is at least every registered
    version. *)
Lemma ascending_skipped (lastInstalled : string) (migs : list (Migration SqliteDB)) :
  ascending migs ->
  forall d, number lastInstalled <= number d ->
  Forall (fun mig =>
            LEQ (Version mig)
              (last_or (map Version (List.filter (pending lastInstalled) migs)) d)
            = true) migs.
Proof.
  induction 1 as [|x rest _ IH Hx]; intros d Hd; [constructor |].
  cbn [List.filter]. destruct (pending lastInstalled x) eqn:Hp.
  - apply pending_lt in Hp. cbn [map last_or].
    constructor; [| apply IH; lia].
    apply LEQ_le.
    destruct (last_or_in (map Version (List.filter (pending lastInstalled) rest))
                (Version x)) as [-> | Hin]; [lia |].
    apply in_map_iff in Hin as (p & <- & Hin).
    apply List.filter_In in Hin as [Hin _].
    rewrite List.Forall_forall in Hx. now apply Hx.
  - constructor; [| now apply IH].
    apply LEQ_le. pose proof (last_pending_above lastInstalled d rest Hd) as Hl.
    apply not_true_iff_false in Hp. rewrite pending_lt in Hp. lia.
Qed.

Lemma records_scanned (recs : list (Migration SqliteDB)) rows :
  Forall2 records recs rows ->
  map Version (map of_row rows) = map Version recs
  /\ map entry (map of_row rows) = map entry recs
  /\ forall b, Forall (fun mig => IsRepeatable mig = b) recs ->
               Forall (fun mig => IsRepeatable mig = b) (map of_row rows).
Proof.
  induction 1 as [|mig r recs rows (Hv & Hd & _ & Hc) _ (IH1 & IH2 & IH3)].
  - split_and!; auto.
  - cbn [map]. rewrite IH1, IH2. split_and!.
    + f_equal. exact Hv.
    + f_equal. unfold entry. cbn [of_row Description Checksum]. now rewrite Hd, Hc.
    + intros b Hb. inversion Hb as [|? ? Hb1 Hb2]; subst.
      constructor; [| now apply IH3].
      unfold IsRepeatable in *. cbn [of_row Version]. now rewrite Hv.
Qed.

Lemma skip_notes_not_installing (migs reps : list (Migration SqliteDB)) :
  Forall (fun c => is_installing c = false)
    (map note_installed migs ++ map note_repeatable reps).
Proof.
  apply Forall_app. split; apply Forall_forall; intros c Hc;
    apply list_elem_of_In, in_map_iff in Hc as (x & <- & _); reflexivity.
Qed.

(** C1, as the code has it.  On the SQLite adapter let the registry be one
    that [Add] builds, its sequential migrations registered in ascending
    order of version and its repeatable migrations under pairwise distinct
    descriptions; let the callables leave the history table alone, the
    history be in rank order and the rank counter have room.  If a first
    call of [Migrate] returns nil, a second call returns nil, leaves the
    database as the first call left it, and logs no install. *)
Theorem Migrate_idempotent m w :
  support m = SQLiteSupport ->
  registry_ok m ->
  Forall preserves_table (migrations m ++ repeatable m) ->
  ascending (migrations m) ->
  List.NoDup (map Description (repeatable m)) ->
  by_rank (history (db w)) ->
  room (history (db w)) m ->
  snd (Migrate m w) = None ->
  exists notes,
    Migrate m (fst (Migrate m w))
    = ({| db := db (fst (Migrate m w));
          logged := logged (fst (Migrate m w)) ++ notes |}, None)
    /\ Forall (fun c => is_installing c = false) notes.
Proof.
  intros Hs [Hseq Hrep] Hp Hasc Hnd Hsorted [Hlo Hhi] Hnil.
  apply Forall_app in Hp as [Hpm Hpr].
  assert (Hfirst : exists w0 rows0 rank0 lastInstalled0 checksums0,
             read_history m w = (w0, (map of_row rows0, None))
             /\ migrations_table (db w0) = Some rows0
             /\ history (db w) = rows0
             /\ scan_installed (map of_row rows0) 0 VersionNone ∅
                = inr (rank0, lastInstalled0, checksums0)).
  { pose proof (read_history_sqlite m w Hs) as Hrd. unfold history.
    destruct (migrations_table (db w)) as [rows|] eqn:Ht.
    - destruct (scan_installed (map of_row rows) 0 VersionNone ∅)
        as [err | [[rank0 last0] cs0]] eqn:Hscan.
      + unfold Migrate in Hnil. rewrite Hrd, Hscan in Hnil. discriminate.
      + now exists w, rows, rank0, last0, cs0.
    - destruct (readonly (db w)).
      + unfold Migrate in Hnil. rewrite Hrd in Hnil. discriminate.
      + now exists (with_db w (with_table (db w) (Some []))), [], 0, VersionNone, ∅. }
  destruct Hfirst as (w0 & rows0 & rank0 & last0 & cs0 & Hrd & Ht0 & Hh & Hscan).
  rewrite Hh in Hsorted, Hlo, Hhi.
  rewrite (Migrate_run_loops m w w0 _ _ _ _ Hrd Hscan) in Hnil |- *.
  pose proof (scan_rows_rank _ _ _ _ Hscan) as ->.
  destruct (run_loops_sqlite m (migrations m) (repeatable m) (top_rank rows0)
              last0 cs0 w0 rows0 Hs Hpm Hpr Ht0 (by_rank_top rows0 Hsorted) Hlo Hhi)
    as (rec_seq & new_seq & rest_seq & rec_rep & new_rep & rest_rep
        & A1 & A2 & A3 & A4 & A5 & _ & A7).
  destruct (A7 Hnil) as (-> & -> & Hst). rewrite app_nil_r in A2, A4.
  apply Forall_app in Hst as [Hst1 Hst2].
  set (w1 := fst (run_loops m (migrations m) (repeatable m) (top_rank rows0)
                    last0 cs0 w0)) in *.
  pose proof (read_history_sqlite m w1 Hs) as Hrd1. rewrite A1 in Hrd1.
  destruct (records_scanned rec_seq new_seq A3) as (V1 & _ & R1).
  destruct (records_scanned rec_rep new_rep A5) as (_ & E2 & R2).
  assert (Hseq1 : Forall (fun mig => IsRepeatable mig = false
                                     /\ Status mig = StatusSuccess)
                    (map of_row new_seq)).
  { assert (Hr : Forall (fun mig => IsRepeatable mig = false) (map of_row new_seq)).
    { apply R1. rewrite <- A2. apply Forall_forall. intros x Hx.
      apply list_elem_of_In, List.filter_In in Hx as [Hx _].
      rewrite Forall_forall in Hseq. now apply Hseq, list_elem_of_In. }
    clear -Hr Hst1. induction new_seq as [|r rows IH]; [constructor |].
    cbn [map] in *. inversion Hr; inversion Hst1; subst.
    constructor; [split; assumption | now apply IH]. }
  assert (Hrep1 : Forall (fun mig => IsRepeatable mig = true) (map of_row new_rep)).
  { apply R2. rewrite <- A4. apply Forall_forall. intros x Hx.
    apply list_elem_of_In, List.filter_In in Hx as [Hx _].
    rewrite Forall_forall in Hrep. now apply Hrep, list_elem_of_In. }
  destruct (scan_installed_sequential (map of_row new_seq) (top_rank rows0)
              last0 cs0 Hseq1) as [rank1 Hscan1].
  destruct (scan_installed_repeatable (map of_row new_rep) rank1
              (last_or (map Version (map of_row new_seq)) last0) cs0 Hrep1)
    as [rank2 Hscan2].
  assert (Hscan' : scan_installed (map of_row (rows0 ++ new_seq ++ new_rep))
                     0 VersionNone ∅
                   = inr (rank2, last_or (map Version (map of_row new_seq)) last0,
                          record_all cs0 (map entry (map of_row new_rep)))).
  { rewrite !map_app, scan_installed_app, Hscan. cbv beta iota.
    rewrite scan_installed_app, Hscan1. exact Hscan2. }
  rewrite (Migrate_run_loops m w1 w1 _ _ _ _ Hrd1 Hscan').
  unfold run_loops.
  rewrite install_where_all_skipped.
  2:{ rewrite V1, <- A2. apply ascending_skipped; [exact Hasc | lia]. }
  rewrite install_where_all_skipped.
  2:{ rewrite E2, <- A4. now apply unchanged_after_run. }
  cbn [db logged]. rewrite <- app_assoc.
  eexists. split; [reflexivity | apply skip_notes_not_installing].
Qed.

End OnSQLite.

End SQLiteProps.

(** ** Runs of the orchestrator on concrete inputs *)

Module MigrateTests.
Import GoStd Migrate MigrateSpec MigrateProps SQLite Inputs.

#[local] Existing Instance conn0.

(** The version comparisons of the specification. *)
Example LEQ_examples :
  LEQ "1" "2" = true /\ LEQ "2" "1" = false /\ LEQ "5" "5" = true
  /\ LEQ "abc" VersionNone = true /\ LEQ "-3" "-5" = false.
Proof. vm_compute. auto. Qed.

(** A version that is not a numeral is compared as 0 when the parser
    rejects its syntax, and as the bound of the range when its digits
    overflow before the parser reaches the byte that is not a digit. *)
Example LEQ_not_numerals :
  LEQ "v2" VersionNone = true /\ LEQ "2x" "1" = true
  /\ LEQ "99999999999999999999x" VersionNone = false
  /\ LEQ "-99999999999999999999x" VersionNone = true.
Proof. vm_compute. auto. Qed.

Lemma Migrate_failed_history_witness :
  exists err,
    Migrate (registry [go "2" "users" (create_table "users")])
      (world (with_history [row 1 "1" "init" EmptyString StatusFailed]))
    = (world (with_history [row 1 "1" "init" EmptyString StatusFailed]), Some err)
    /\ logged (world (with_history [row 1 "1" "init" EmptyString StatusFailed]))
       = logged (world (with_history [row 1 "1" "init" EmptyString StatusFailed])).
Proof.
  apply (Migrate_failed_history (registry [go "2" "users" (create_table "users")])
           (world (with_history [row 1 "1" "init" EmptyString StatusFailed]))
           (world (with_history [row 1 "1" "init" EmptyString StatusFailed]))
           [of_row (row 1 "1" "init" EmptyString StatusFailed)]).
  - reflexivity.
  - reflexivity.
Defined.

Lemma repeatable_gate_witness :
  (last_recorded [of_row (row 1 "R" "views" "abc" StatusSuccess)]
     (Description (view "views" "abc")) = Some (Checksum (view "views" "abc")) ->
   install_repeatable (registry []) (<["views" := "abc"]> ∅)
     [view "views" "abc"] 1 (world (with_history []))
   = install_repeatable (registry []) (<["views" := "abc"]> ∅) [] 1
       (log (world (with_history [])) "skipping repeatable migration: %s"
          [Description (view "views" "abc")]))
  /\ (last_recorded [of_row (row 1 "R" "views" "abc" StatusSuccess)]
        (Description (view "views" "abc")) = None
      \/ (exists cs,
             last_recorded [of_row (row 1 "R" "views" "abc" StatusSuccess)]
               (Description (view "views" "abc")) = Some cs
             /\ cs <> Checksum (view "views" "abc")) ->
      install_repeatable (registry []) (<["views" := "abc"]> ∅)
        [view "views" "abc"] 1 (world (with_history []))
      = match install (registry []) (with_rank (view "views" "abc") (wrap64 (1 + 1)))
                (world (with_history [])) with
        | (w', Some err) => (w', wrap64 (1 + 1), Some err)
        | (w', None) =>
            install_repeatable (registry []) (<["views" := "abc"]> ∅) []
              (wrap64 (1 + 1)) w'
        end).
Proof.
  apply (repeatable_gate (registry [])
           [of_row (row 1 "R" "views" "abc" StatusSuccess)] 1 VersionNone
           (<["views" := "abc"]> ∅) (view "views" "abc") [] 1
           (world (with_history []))).
  reflexivity.
Defined.

(** An unchanged script is skipped, a changed one is installed again. *)
Example repeatable_runs :
  map r_checksum
    (history (db (fst (Migrate (registry [view "views" "abc"])
                         (world (with_history
                                   [row 1 "R" "views" "abc" StatusSuccess]))))))
  = ["abc"]
  /\ map r_checksum
       (history (db (fst (Migrate (registry [view "views" "abd"])
                            (world (with_history
                                      [row 1 "R" "views" "abc" StatusSuccess]))))))
     = ["abc"; "abd"].
Proof. vm_compute. auto. Qed.

Lemma install_record_error_witness :
  install (registry []) (go "1" "users" (failing "near FROM: syntax error"))
    (world readonly_db)
  = (with_db (log (world readonly_db) "installing: %s"
                [String_ (go "1" "users" (failing "near FROM: syntax error"))])
       readonly_db,
     Some ("record migration: "
           +:+ String_ (go "1" "users" (failing "near FROM: syntax error"))
           +:+ ": " +:+ errReadonly)).
Proof.
  apply (install_record_error (registry [])
           (go "1" "users" (failing "near FROM: syntax error"))
           (world readonly_db) (failing "near FROM: syntax error")
           readonly_db "near FROM: syntax error" readonly_db errReadonly);
    reflexivity.
Defined.

(** C6 fails as stated: the callable fails with a syntax error, the write of
    the record fails because the database is read-only, and the error that
    [install] returns does not contain the text of the callable's error; a
    callable failing with another error gives the very same result. *)
Lemma install_discards_execution_error :
  snd (install (registry []) (go "1" "users" (failing "near FROM: syntax error"))
         (world readonly_db))
  = Some "record migration: @Migration|version=1|description=users|type=Go: attempt to write a readonly database"
  /\ Contains
       "record migration: @Migration|version=1|description=users|type=Go: attempt to write a readonly database"
       "near FROM: syntax error" = false
  /\ snd (install (registry []) (go "1" "users" (failing "disk I/O error"))
            (world readonly_db))
     = snd (install (registry []) (go "1" "users" (failing "near FROM: syntax error"))
              (world readonly_db)).
Proof. vm_compute. auto. Qed.

(** C7 fails in [Baseline]: on a read-only database whose history table is
    empty the adapter refuses the write of the baseline record, and
    [Baseline] returns nil all the same, the history still empty. *)
Theorem Baseline_discards_record_error :
  snd (RecordMigration SQLiteSupport readonly_db
         (baseline_record "3" "baseline" (Now readonly_db)))
  = Some errReadonly
  /\ Baseline (registry []) "3" "baseline" (world readonly_db)
     = (world readonly_db, None)
  /\ history (db (fst (Baseline (registry []) "3" "baseline" (world readonly_db))))
     = [].
Proof. vm_compute. auto. Qed.

Lemma nonpositive_version_skipped_witness :
  LEQ (Version (go "0" "zero" (create_table "zero"))) VersionNone = true
  /\ db (fst (Migrate (registry [go "0" "zero" (create_table "zero");
                                 go "1" "one" (create_table "one")])
                (world fresh_db)))
     = db (fst (Migrate
                  (with_migrations
                     (registry [go "0" "zero" (create_table "zero");
                                go "1" "one" (create_table "one")])
                     ([] ++ [go "1" "one" (create_table "one")]))
                  (world fresh_db)))
  /\ snd (Migrate (registry [go "0" "zero" (create_table "zero");
                             go "1" "one" (create_table "one")])
            (world fresh_db))
     = snd (Migrate
              (with_migrations
                 (registry [go "0" "zero" (create_table "zero");
                            go "1" "one" (create_table "one")])
                 ([] ++ [go "1" "one" (create_table "one")]))
              (world fresh_db)).
Proof.
  apply (nonpositive_version_skipped
           (registry [go "0" "zero" (create_table "zero");
                      go "1" "one" (create_table "one")])
           [] (go "0" "zero" (create_table "zero"))
           [go "1" "one" (create_table "one")]
           (world fresh_db) (world (with_history [])) [] 0 VersionNone ∅).
  - reflexivity.
  - reflexivity.
  - reflexivity.
  - vm_compute. discriminate.
  - vm_compute. discriminate.
Defined.

(** C10 fails as stated: after a baseline at version -5, the registered
    migration of version -3, whose numeric value is below 0, is installed. *)
Lemma negative_version_installed :
  number "-3" = -3
  /\ snd (Migrate (registry [go "-3" "early" (create_table "early")])
            (world (with_history
                      [to_row (baseline_record "-5" "baseline" 1700000000000000000)])))
     = None
  /\ map r_version
       (history
          (db (fst (Migrate (registry [go "-3" "early" (create_table "early")])
                      (world (with_history
                                [to_row (baseline_record "-5" "baseline"
                                           1700000000000000000)]))))))
     = ["-5"; "-3"]
  /\ master
       (db (fst (Migrate (registry [go "-3" "early" (create_table "early")])
                   (world (with_history
                             [to_row (baseline_record "-5" "baseline"
                                        1700000000000000000)])))))
     = [("table", "early")].
Proof. vm_compute. auto. Qed.

Lemma in_order_preserves :
  Forall SQLiteSpec.preserves_table (migrations in_order ++ repeatable in_order).
Proof.
  repeat constructor; intros execute d He; cbn in He; injection He as <-;
    reflexivity.
Qed.

Lemma in_order_preserves_mode :
  Forall SQLiteSpec.preserves_mode (migrations in_order ++ repeatable in_order).
Proof.
  repeat constructor; intros execute d He; cbn in He; injection He as <-;
    reflexivity.
Qed.

Lemma Migrate_ranks_witness :
  exists (recorded : list (Migration SqliteDB)) (new : list Row)
         (rest : list (Migration SqliteDB)) (entries : list LogCall),
    List.filter (SQLiteSpec.pending VersionNone) (migrations in_order)
    ++ List.filter (SQLiteSpec.changed ∅) (repeatable in_order) = recorded ++ rest
    /\ logged (fst (Migrate in_order (world fresh_db)))
       = logged (world fresh_db) ++ entries
    /\ List.filter is_installing entries = map installing recorded
    /\ history (db (fst (Migrate in_order (world fresh_db))))
       = history (db (world fresh_db)) ++ new
    /\ Forall2 SQLiteSpec.records recorded new
    /\ map r_rank (history (db (world fresh_db)) ++ new)
       = seqZ 1 (Z.of_nat (0 + length recorded))
    /\ (snd (Migrate in_order (world fresh_db)) = None ->
        rest = [] /\ Forall (fun x => r_status x = StatusSuccess) new)
    /\ (snd (Migrate in_order (world fresh_db)) <> None ->
        SQLiteSpec.stopped rest new).
Proof.
  apply (SQLiteProps.Migrate_ranks in_order (world fresh_db) 0 0 VersionNone ∅).
  - reflexivity.
  - exact in_order_preserves.
  - exact in_order_preserves_mode.
  - reflexivity.
  - reflexivity.
  - vm_compute. reflexivity.
  - reflexivity.
Defined.

(** That run: four installs, ranks 1 to 4, the sequential migrations
    first. *)
Example Migrate_ranks_run :
  map (fun r => (r_rank r, r_version r, r_status r))
    (history (db (fst (Migrate in_order (world fresh_db)))))
  = [(1, "1", StatusSuccess); (2, "2", StatusSuccess); (3, "3", StatusSuccess);
     (4, "R", StatusSuccess)].
Proof. vm_compute. reflexivity. Qed.

(** The installs that run announced, and its result. *)
Example Migrate_ranks_log :
  List.filter is_installing (logged (fst (Migrate in_order (world fresh_db))))
  = map installing (migrations in_order ++ repeatable in_order)
  /\ snd (Migrate in_order (world fresh_db)) = None.
Proof. vm_compute. split; reflexivity. Qed.

(** A run that stops: the second of three migrations fails, its install is
    the last one announced and its record, with status failed, the last
    one written; the third is not reached. *)
Example Migrate_ranks_stopped :
  map (fun r => (r_rank r, r_version r, r_status r))
    (history (db (fst (Migrate second_fails (world fresh_db)))))
  = [(1, "1", StatusSuccess); (2, "2", StatusFailed)]
  /\ length (List.filter is_installing
               (logged (fst (Migrate second_fails (world fresh_db))))) = 2%nat
  /\ snd (Migrate second_fails (world fresh_db)) <> None.
Proof. vm_compute. split_and!; [reflexivity | reflexivity | discriminate]. Qed.


(** The two cases of [Baseline] run: on the empty history the baseline
    record then the migration above version 2 and the repeatable one; on
    the history that results, an error and no change. *)
Example Baseline_runs :
  map (fun r => (r_rank r, r_version r, r_type r, r_status r))
    (history (db (fst (Baseline in_order "2" "legacy schema" (world fresh_db)))))
  = [(1, "2", TypeBaseline, StatusSuccess); (2, "3", TypeGo, StatusSuccess);
     (3, "R", TypeSQL, StatusSuccess)]
  /\ Baseline in_order "7" "again"
       (world (db (fst (Baseline in_order "2" "legacy schema" (world fresh_db)))))
     = (world (db (fst (Baseline in_order "2" "legacy schema" (world fresh_db)))),
        Some "unable to baseline: found existing migrations").
Proof. vm_compute. auto. Qed.

Lemma Migrate_idempotent_witness :
  exists notes,
    Migrate in_order (fst (Migrate in_order (world fresh_db)))
    = ({| db := db (fst (Migrate in_order (world fresh_db)));
          logged := logged (fst (Migrate in_order (world fresh_db))) ++ notes |},
       None)
    /\ Forall (fun c => is_installing c = false) notes.
Proof.
  apply (SQLiteProps.Migrate_idempotent in_order (world fresh_db)).
  - reflexivity.
  - unfold in_order, registry. cbn [fold_left].
    repeat apply Add_ok. apply NewMigrator_ok.
  - exact in_order_preserves.
  - repeat constructor; vm_compute; discriminate.
  - repeat constructor. intros Hin. inversion Hin.
  - constructor.
  - split; vm_compute; [discriminate | reflexivity].
  - vm_compute. reflexivity.
Defined.

(** C1 fails as stated: with version 2 registered before version 1 the
    first call installs both and returns nil; the history then ends with
    version 1, and the second call, which returns nil too, installs
    version 2 once more. *)
Lemma Migrate_twice_out_of_order :
  snd (Migrate out_of_order (world fresh_db)) = None
  /\ map (fun r => (r_rank r, r_version r))
       (history (db (fst (Migrate out_of_order (world fresh_db)))))
     = [(1, "2"); (2, "1")]
  /\ snd (Migrate out_of_order (fst (Migrate out_of_order (world fresh_db)))) = None
  /\ map (fun r => (r_rank r, r_version r))
       (history
          (db (fst (Migrate out_of_order
                      (fst (Migrate out_of_order (world fresh_db)))))))
     = [(1, "2"); (2, "1"); (3, "2")].
Proof. vm_compute. auto. Qed.

(** The same with two repeatable migrations under one description: both
    are installed by the first call, the second of them is the one the
    history remembers, and the second call installs the first again. *)
Example Migrate_twice_same_description :
  snd (Migrate same_description (world fresh_db)) = None
  /\ snd (Migrate same_description (fst (Migrate same_description (world fresh_db))))
     = None
  /\ map r_rank
       (history
          (db (fst (Migrate same_description
                      (fst (Migrate same_description (world fresh_db)))))))
     = [1; 2; 3].
Proof. vm_compute. auto. Qed.

End MigrateTests.

(** ** More on the regular expressions *)

Module RegexpFacts.
Import GoStd StringFacts RegexpSpec.

Lemma matches_nil_inv (r : regexp) (s : string) :
  matches r s -> s = EmptyString -> nullable r = true.
Proof.
  induction 1 as [| | |r1 r2 s1 s2 _ IH1 _ IH2|r1 r2 s _ IH|r1 r2 s _ IH| |];
    intros E; cbn [nullable]; try discriminate; try reflexivity.
  - apply append_eq_nil in E as [E1 E2]. now rewrite IH1, IH2.
  - now rewrite IH.
  - rewrite IH by exact E. apply orb_true_r.
Qed.

Lemma nullable_matches (r : regexp) : nullable r = true <-> matches r EmptyString.
Proof.
  split; [| intros Hm; now apply (matches_nil_inv r EmptyString)].
  induction r; cbn [nullable]; intros Hn; try discriminate.
  - constructor.
  - apply andb_true_iff in Hn as [H1 H2].
    change EmptyString with (EmptyString +:+ EmptyString). constructor; auto.
  - apply orb_true_iff in Hn as [Hn | Hn]; [apply MAltL | apply MAltR]; auto.
  - constructor.
Qed.

Lemma deriv_sound (c : ascii) (r : regexp) (s : string) :
  matches (deriv c r) s -> matches r (String c s).
Proof.
  revert s. induction r; cbn [deriv]; intros s Hm.
  - inversion Hm.
  - inversion Hm.
  - destruct (Ascii.eqb_spec c c0) as [-> | Hne]; inversion Hm; subst. constructor.
  - destruct (Ascii.eqb_spec c NL) as [-> | Hne]; inversion Hm; subst.
    now constructor.
  - destruct (nullable r1) eqn:Hn.
    + inversion Hm as [| | | | ? ? ? Hl | ? ? ? Hr | |]; subst.
      * inversion Hl; subst. rewrite <- append_cons. constructor; auto.
      * change (String c s) with (EmptyString +:+ String c s).
        constructor; [now apply nullable_matches | auto].
    + inversion Hm; subst. rewrite <- append_cons. constructor; auto.
  - inversion Hm; subst; [apply MAltL | apply MAltR]; auto.
  - inversion Hm; subst. rewrite <- append_cons. constructor; auto.
Qed.

Lemma deriv_complete (c : ascii) (r : regexp) (s0 : string) :
  matches r s0 -> forall s, s0 = String c s -> matches (deriv c r) s.
Proof.
  induction 1 as [|c0|c0 Hc|r1 r2 s1 s2 H1 IH1 H2 IH2|r1 r2 s0 _ IH|r1 r2 s0 _ IH
                  |r|r s1 s2 H1 IH1 H2 IH2]; intros s E; cbn [deriv].
  - discriminate.
  - injection E as -> <-. rewrite Ascii.eqb_refl. constructor.
  - injection E as -> <-. apply Ascii.eqb_neq in Hc. rewrite Hc. constructor.
  - destruct s1 as [|x s1].
    + rewrite append_nil_l in E.
      rewrite (matches_nil_inv r1 EmptyString H1 eq_refl).
      apply MAltR. now apply IH2.
    + rewrite append_cons in E. injection E as -> <-.
      destruct (nullable r1); [apply MAltL |]; constructor; auto.
  - apply MAltL. now apply IH.
  - apply MAltR. now apply IH.
  - discriminate.
  - destruct s1 as [|x s1].
    + rewrite append_nil_l in E. now apply IH2.
    + rewrite append_cons in E. injection E as -> <-. constructor; auto.
Qed.

Lemma match_prefix_iff (r : regexp) (s : string) :
  match_prefix r s = true <-> exists p q, s = p +:+ q /\ matches r p.
Proof.
  revert r. induction s as [|c s IH]; intros r; cbn [match_prefix].
  - rewrite orb_false_r, nullable_matches. split.
    + intros Hm. now exists EmptyString, EmptyString.
    + intros (p & q & E & Hm). symmetry in E.
      apply append_eq_nil in E as [-> _]. exact Hm.
  - rewrite orb_true_iff, nullable_matches, IH. split.
    + intros [Hm | (p & q & -> & Hm)].
      * now exists EmptyString, (String c s).
      * exists (String c p), q. split; [reflexivity | now apply deriv_sound].
    + intros ([|x p] & q & E & Hm); [now left |].
      rewrite append_cons in E. injection E as <- ->. right.
      exists p, q. split; [reflexivity | now apply (deriv_complete c r (String c p))].
Qed.

Lemma MatchString_iff (r : regexp) (s : string) :
  MatchString r s = true <-> exists pre p q, s = pre +:+ p +:+ q /\ matches r p.
Proof.
  induction s as [|c s IH]; cbn [MatchString].
  - rewrite orb_false_r, match_prefix_iff. split.
    + intros (p & q & E & Hm). now exists EmptyString, p, q.
    + intros (pre & p & q & E & Hm). symmetry in E.
      apply append_eq_nil in E as [-> E]. now exists p, q.
  - rewrite orb_true_iff, match_prefix_iff, IH. split.
    + intros [(p & q & E & Hm) | (pre & p & q & -> & Hm)].
      * now exists EmptyString, p, q.
      * now exists (String c pre), p, q.
    + intros ([|x pre] & p & q & E & Hm).
      * left. now exists p, q.
      * rewrite append_cons in E. injection E as <- ->. right. now exists pre, p, q.
Qed.

Lemma matches_Str (kw s : string) : matches (Str kw) s <-> s = kw.
Proof.
  revert s. induction kw as [|c kw IH]; intros s; cbn [Str].
  - split; [now inversion 1 | intros ->; constructor].
  - split.
    + inversion 1 as [| | |? ? s1 s2 H1 H2| | | |]; subst.
      inversion H1; subst. apply IH in H2 as ->. reflexivity.
    + intros ->. change (String c kw) with (String c EmptyString +:+ kw).
      constructor; [constructor | now apply IH].
Qed.

Lemma matches_Cat_inv (r1 r2 : regexp) (s : string) :
  matches (Cat r1 r2) s ->
  exists s1 s2, s = s1 +:+ s2 /\ matches r1 s1 /\ matches r2 s2.
Proof. inversion 1; subst. eauto. Qed.

Lemma matches_Alt_inv (r1 r2 : regexp) (s : string) :
  matches (Alt r1 r2) s -> matches r1 s \/ matches r2 s.
Proof. inversion 1; subst; auto. Qed.

(** A string matches the expression of [StatementBuilder.Append] exactly
    when it contains, anywhere and in this very spelling, [CREATE TRIGGER],
    [CREATE TEMP TRIGGER] or [CREATE TEMPORARY TRIGGER]. *)
Lemma createTrigger_substring (line : string) :
  MatchString Splitter.createTriggerRE line = true
  <-> has_substring line "CREATE TRIGGER"
      \/ has_substring line "CREATE TEMP TRIGGER"
      \/ has_substring line "CREATE TEMPORARY TRIGGER".
Proof.
  rewrite MatchString_iff. unfold Splitter.createTriggerRE, Opt. split.
  - intros (pre & p & q & -> & Hm).
    apply matches_Cat_inv in Hm as (s1 & t1 & -> & H1 & Hm).
    apply matches_Cat_inv in Hm as (s2 & t2 & -> & H2 & Hm).
    apply matches_Cat_inv in Hm as (s3 & s4 & -> & H3 & _).
    apply matches_Str in H1 as ->. apply matches_Str in H3 as ->.
    apply matches_Alt_inv in H2 as [H2 | H2].
    + apply matches_Alt_inv in H2 as [H2 | H2]; apply matches_Str in H2 as ->.
      * right. left. exists pre, (s4 +:+ q).
        change "CREATE TEMP TRIGGER" with ("CREATE" +:+ " TEMP" +:+ " TRIGGER").
        now rewrite !append_assoc.
      * right. right. exists pre, (s4 +:+ q).
        change "CREATE TEMPORARY TRIGGER"
          with ("CREATE" +:+ " TEMPORARY" +:+ " TRIGGER").
        now rewrite !append_assoc.
    + inversion H2; subst. left. exists pre, (s4 +:+ q).
      change "CREATE TRIGGER" with ("CREATE" +:+ EmptyString +:+ " TRIGGER").
      now rewrite !append_assoc.
  - intros [(pre & post & ->) | [(pre & post & ->) | (pre & post & ->)]].
    + exists pre, "CREATE TRIGGER", post. split; [reflexivity |].
      change "CREATE TRIGGER"
        with ("CREATE" +:+ EmptyString +:+ " TRIGGER" +:+ EmptyString).
      constructor; [now apply matches_Str |].
      constructor; [apply MAltR; constructor |].
      constructor; [now apply matches_Str | constructor].
    + exists pre, "CREATE TEMP TRIGGER", post. split; [reflexivity |].
      change "CREATE TEMP TRIGGER"
        with ("CREATE" +:+ " TEMP" +:+ " TRIGGER" +:+ EmptyString).
      constructor; [now apply matches_Str |].
      constructor; [apply MAltL, MAltL; now apply matches_Str |].
      constructor; [now apply matches_Str | constructor].
    + exists pre, "CREATE TEMPORARY TRIGGER", post. split; [reflexivity |].
      change "CREATE TEMPORARY TRIGGER"
        with ("CREATE" +:+ " TEMPORARY" +:+ " TRIGGER" +:+ EmptyString).
      constructor; [now apply matches_Str |].
      constructor; [apply MAltL, MAltR; now apply matches_Str |].
      constructor; [now apply matches_Str | constructor].
Qed.

(** X1.  Trigger mode is chosen by the line that starts a statement.
    When the buffer of the builder is empty, [Append] puts the builder in
    trigger mode exactly when the line, trimmed of white space, contains
    anywhere and in this very spelling [CREATE TRIGGER],
    [CREATE TEMP TRIGGER] or [CREATE TEMPORARY TRIGGER].  When the buffer
    is not empty, [Append] leaves the mode as it is, whatever the line. *)
Theorem Append_trigger_mode (b : Splitter.StatementBuilder) (line : string) :
  (Splitter.buffer b = EmptyString ->
   (Splitter.createTrigger (Splitter.Append b line) = true
    <-> has_substring (TrimSpace line) "CREATE TRIGGER"
        \/ has_substring (TrimSpace line) "CREATE TEMP TRIGGER"
        \/ has_substring (TrimSpace line) "CREATE TEMPORARY TRIGGER"))
  /\ (Splitter.buffer b <> EmptyString ->
      Splitter.createTrigger (Splitter.Append b line) = Splitter.createTrigger b).
Proof.
  split; intros E.
  - rewrite (SplitterProps.Append_fresh b line E).
    cbn [Splitter.createTrigger]. apply createTrigger_substring.
  - now rewrite (SplitterProps.Append_more b line E).
Qed.

(** Both cases run: the keyword after leading white space on a fresh
    builder, a lower-case spelling, and the keyword on a later line of a
    plain statement. *)
Example Append_trigger_mode_examples :
  Splitter.createTrigger
    (Splitter.Append Splitter.NewStatementBuilder "   CREATE TEMP TRIGGER t") = true
  /\ Splitter.createTrigger
       (Splitter.Append Splitter.NewStatementBuilder "create trigger t") = false
  /\ Splitter.createTrigger
       (Splitter.Append
          (Splitter.Append Splitter.NewStatementBuilder "INSERT INTO log VALUES (")
          "'CREATE TRIGGER t');") = false.
Proof. vm_compute. repeat split. Qed.

End RegexpFacts.

(** ** More on the splitter *)

Module MoreSplitter.
Import GoStd Splitter StringFacts SplitterSpec ScannerFacts SplitterProps
  RegexpSpec Inputs.

Lemma ScanLines_app_fits (a b : string) :
  whole_lines a = true -> fits_all a = true ->
  ScanLines (a +:+ b) = ScanLines a ++ ScanLines b.
Proof.
  intros Hw Hf. destruct (whole_lines_inv _ Hw) as [-> | [a' ->]];
    [reflexivity |].
  unfold fits_all in Hf. unfold ScanLines.
  now rewrite append_assoc, raw_lines_app, scan_while_app, map_app, Hf.
Qed.

Lemma Append_empty_buffer (b : StatementBuilder) (line : string) :
  buffer b = EmptyString -> Append b line = Append NewStatementBuilder line.
Proof. intros E. now rewrite !Append_fresh. Qed.

Lemma scan_loop_empty_buffer (ls : list string) (b : StatementBuilder)
    (ss : list string) :
  buffer b = EmptyString ->
  fst (scan_loop ls b ss) = fst (scan_loop ls NewStatementBuilder ss).
Proof.
  intros E. destruct ls as [|l ls]; [reflexivity |].
  cbn [scan_loop]. now rewrite (Append_empty_buffer b l E).
Qed.

(** X2.  Splitting composes at a statement boundary.  When the script [a]
    is made of whole lines, none too long for the scanner, and leaves no
    statement under way, the statements of [a] followed by [b] are those of
    [a] followed by those of [b]. *)
Theorem Statements_app (a b : string) :
  whole_lines a = true -> fits_all a = true ->
  buffer (builder_after a) = EmptyString ->
  Statements (a +:+ b) = Statements a ++ Statements b.
Proof.
  intros Hw Hf Hb. unfold Statements.
  rewrite (ScanLines_app_fits a b Hw Hf), scan_loop_app.
  rewrite scan_loop_empty_buffer by exact Hb.
  now rewrite scan_loop_acc.
Qed.

Lemma Statements_app_witness :
  Statements (complete_head +:+ script2)
  = Statements complete_head ++ Statements script2.
Proof.
  apply (Statements_app complete_head script2); vm_compute; reflexivity.
Defined.

(** Outside trigger mode, with a statement under way, the lines up to the
    first one that ends with a semicolon complete that statement. *)
Lemma scan_loop_plain_body (pre : list string) (le : string)
    (rest : list string) (b : StatementBuilder) (ss : list string) :
  buffer b <> EmptyString -> createTrigger b = false ->
  Forall (fun l => HasSuffix (TrimSpace l) ";" = false) pre ->
  HasSuffix (TrimSpace le) ";" = true ->
  scan_loop (pre ++ le :: rest) b ss
  = scan_loop rest NewStatementBuilder
      (ss ++ [buffer b +:+ nl +:+ join_nl (map TrimSpace (pre ++ [le]))]).
Proof.
  revert b. induction pre as [|p pre IH]; intros b Eb Ht Hpre Hle.
  - cbn [app scan_loop map]. rewrite Append_more by exact Eb.
    unfold IsTerminated, Statement. cbn [terminated buffer]. now rewrite Ht, Hle.
  - inversion Hpre as [|? ? Hp Hrest]; subst.
    destruct (awaited_more b p [] Eb) as (_ & Ht' & Eb').
    cbn [app scan_loop].
    assert (Hnt : IsTerminated (Append b p) = false).
    { rewrite Append_more by exact Eb. unfold IsTerminated. cbn [terminated].
      now rewrite Ht. }
    rewrite Hnt, IH; [| exact Eb' | now rewrite Ht' | exact Hrest | exact Hle].
    do 2 f_equal. f_equal. rewrite Append_more by exact Eb. cbn [buffer].
    rewrite append_assoc. f_equal.
    change (p :: pre ++ [le]) with (p :: (pre ++ [le])).
    destruct (pre ++ [le]) as [|y ys] eqn:E.
    + now destruct pre.
    + cbn [map]. now rewrite join_nl_cons.
Qed.

Lemma scan_loop_plain (pre : list string) (le : string)
    (rest : list string) (b : StatementBuilder) (ss : list string) :
  buffer b = EmptyString ->
  blank (hd le pre) = false ->
  MatchString createTriggerRE (TrimSpace (hd le pre)) = false ->
  Forall (fun l => HasSuffix (TrimSpace l) ";" = false) pre ->
  HasSuffix (TrimSpace le) ";" = true ->
  scan_loop (pre ++ le :: rest) b ss
  = scan_loop rest NewStatementBuilder
      (ss ++ [join_nl (map TrimSpace (pre ++ [le]))]).
Proof.
  intros Eb Hnb Hm Hpre Hle. destruct pre as [|p pre]; cbn [hd] in Hnb, Hm.
  - cbn [app scan_loop map join_nl]. rewrite Append_fresh by exact Eb.
    unfold IsTerminated, Statement. cbn [terminated buffer]. now rewrite Hm, Hle.
  - inversion Hpre as [|? ? Hp Hrest]; subst.
    cbn [app scan_loop].
    assert (Hnt : IsTerminated (Append b p) = false).
    { rewrite Append_fresh by exact Eb. unfold IsTerminated. cbn [terminated].
      now rewrite Hm. }
    rewrite Hnt, scan_loop_plain_body; [| | | exact Hrest | exact Hle].
    + do 2 f_equal. f_equal. rewrite Append_fresh by exact Eb. cbn [buffer].
      change (p :: pre ++ [le]) with (p :: (pre ++ [le])).
      destruct (pre ++ [le]) as [|y ys] eqn:E.
      * now destruct pre.
      * cbn [map]. now rewrite join_nl_cons.
    + rewrite Append_fresh by exact Eb. cbn [buffer].
      unfold blank in Hnb. now apply String.eqb_neq in Hnb.
    + rewrite Append_fresh by exact Eb. exact Hm.
Qed.

(** X3.  An ordinary statement.  Let the lines of the script be [before],
    then blank lines, then [pre] followed by [le], then [rest], where a
    statement starts after [before], the first of the lines [pre ++ [le]]
    is not blank and does not match the CREATE TRIGGER expression, no line
    of [pre] ends with a semicolon and [le] does.  Then these lines give
    exactly one statement: the trimmed lines joined by newlines, the blank
    lines before them left out. *)
Theorem Statements_plain (script : string) (before blanks pre : list string)
    (le : string) (rest : list string) :
  ScanLines script = before ++ blanks ++ pre ++ le :: rest ->
  buffer (snd (scan_loop before NewStatementBuilder [])) = EmptyString ->
  Forall (fun l => blank l = true) blanks ->
  blank (hd le pre) = false ->
  MatchString createTriggerRE (TrimSpace (hd le pre)) = false ->
  Forall (fun l => HasSuffix (TrimSpace l) ";" = false) pre ->
  HasSuffix (TrimSpace le) ";" = true ->
  Statements script
  = fst (scan_loop before NewStatementBuilder [])
    ++ join_nl (map TrimSpace (pre ++ [le]))
    :: fst (scan_loop rest NewStatementBuilder []).
Proof.
  intros Hs Eb Hbl Hnb Hm Hpre Hle. unfold Statements. rewrite Hs, scan_loop_app.
  destruct (scan_loop_blanks blanks (pre ++ le :: rest) _
              (fst (scan_loop before NewStatementBuilder [])) Eb Hbl)
    as (b' & Eb' & ->).
  rewrite (scan_loop_plain pre le rest b' _ Eb' Hnb Hm Hpre Hle).
  rewrite scan_loop_acc. cbn [fst]. now rewrite <- app_assoc.
Qed.

Lemma Statements_plain_witness :
  Statements two_line_insert
  = fst (scan_loop [] NewStatementBuilder [])
    ++ join_nl (map TrimSpace ([tab3 +:+ "INSERT INTO foo"] ++ [tab3 +:+ "VALUES (1);"]))
    :: fst (scan_loop ["DROP TABLE foo;"] NewStatementBuilder []).
Proof.
  apply (Statements_plain two_line_insert [] [EmptyString; tab3]
           [tab3 +:+ "INSERT INTO foo"] (tab3 +:+ "VALUES (1);")
           ["DROP TABLE foo;"]).
  - vm_compute. reflexivity.
  - reflexivity.
  - repeat constructor.
  - vm_compute. reflexivity.
  - vm_compute. reflexivity.
  - vm_compute. repeat constructor.
  - vm_compute. reflexivity.
Defined.

End MoreSplitter.

(** ** More on the orchestrator, for every adapter *)

Module MoreMigrate.
Import GoStd Migrate MigrateSpec MigrateProps StringFacts Splitter SplitterSpec
  ScannerFacts SplitterProps.

Section Generic.
Context {DB : Type} `{Conn DB}.

Implicit Types (m : Migrator DB) (mig : Migration DB) (w : World DB).

(** X4.  Registration keeps the order and sorts by the sentinel.  After any
    sequence of calls of [Add], the sequential list is what it was followed
    by the added migrations whose version is not the repeatable sentinel,
    the repeatable list what it was followed by the others, both in the
    order of the calls; the adapter is unchanged. *)
Theorem add_all_split m (migs : list (Migration DB)) :
  migrations (add_all m migs)
  = migrations m ++ List.filter (fun mig => negb (IsRepeatable mig)) migs
  /\ repeatable (add_all m migs)
     = repeatable m ++ List.filter IsRepeatable migs
  /\ support (add_all m migs) = support m.
Proof.
  revert m. induction migs as [|mig migs IH]; intros m.
  - cbn. now rewrite !app_nil_r.
  - cbn [add_all fold_left List.filter]. fold (add_all (Add m mig) migs).
    destruct (IH (Add m mig)) as (-> & -> & ->). unfold Add.
    destruct (IsRepeatable mig); cbn [negb migrations repeatable support];
      rewrite <- ?app_assoc; auto.
Qed.

(** X5.  The scan of the history fails exactly when some record of a
    sequential migration has a status other than success, whether it is
    failed or anything else; records of repeatable migrations never make it
    fail, whatever their status. *)
Theorem scan_installed_error_iff (installed : list (Migration DB)) rank
    lastInstalled (checksums : gmap string string) :
  (exists err, scan_installed installed rank lastInstalled checksums = inl err)
  <-> existsb unsuccessful_sequential installed = true.
Proof.
  revert rank lastInstalled checksums.
  induction installed as [|mig rest IH]; intros rank lastInstalled checksums.
  - cbn. split; [intros [err E]; discriminate | discriminate].
  - cbn [scan_installed existsb]. unfold unsuccessful_sequential at 1.
    destruct (IsRepeatable mig); cbn [negb andb orb]; [apply IH |].
    destruct (String.eqb_spec (Status mig) StatusFailed) as [E | _].
    + rewrite E. cbn. split; [reflexivity | intros _; eauto].
    + destruct (String.eqb (Status mig) StatusSuccess); cbn [negb orb];
        [apply IH |].
      split; [reflexivity | intros _; eauto].
Qed.

Lemma install_pending_app m lastInstalled xs ys rank w :
  install_pending m lastInstalled (xs ++ ys) rank w
  = match install_pending m lastInstalled xs rank w with
    | (w', rank', Some err) => (w', rank', Some err)
    | (w', rank', None) => install_pending m lastInstalled ys rank' w'
    end.
Proof. rewrite !install_pending_where, install_where_app.
  destruct (install_where m _ note_installed xs rank w) as [[w' rank'] [err|]];
    [reflexivity | now rewrite install_pending_where].
Qed.

(** X6.  [Migrate] stops at the first install that fails.  When the
    sequential loop has gone through [pre] without error and the install of
    the next pending migration returns an error, [Migrate] returns that
    error in the state that install left: the migrations registered after
    it, and the repeatable ones, are not attempted. *)
Theorem Migrate_stops_at_failure m w w0 (installed : list (Migration DB)) rank
    lastInstalled checksums pre mig post w1 rank1 w2 err :
  read_history m w = (w0, (installed, None)) ->
  scan_installed installed 0 VersionNone ∅ = inr (rank, lastInstalled, checksums) ->
  migrations m = pre ++ mig :: post ->
  install_pending m lastInstalled pre rank w0 = (w1, rank1, None) ->
  LEQ (Version mig) lastInstalled = false ->
  install m (with_rank mig (wrap64 (rank1 + 1))) w1 = (w2, Some err) ->
  Migrate m w = (w2, Some err).
Proof.
  intros Hr Hs Hm Hpre Hle Hi. unfold Migrate. rewrite Hr, Hs, Hm.
  rewrite install_pending_app, Hpre. cbn [install_pending]. now rewrite Hle, Hi.
Qed.

Lemma last_recorded_snoc (installed : list (Migration DB)) rec description :
  last_recorded (installed ++ [rec]) description
  = if IsRepeatable rec && String.eqb (Description rec) description
    then Some (Checksum rec) else last_recorded installed description.
Proof.
  induction installed as [|x rest IH]; cbn [app last_recorded].
  - now destruct (IsRepeatable rec && String.eqb (Description rec) description).
  - rewrite IH.
    destruct (IsRepeatable rec && String.eqb (Description rec) description);
      reflexivity.
Qed.

(** X7.  The status of a repeatable record is not consulted.  When the
    last record of the history is a record of a repeatable migration with
    the description and checksum of a registered one, the loop skips that
    migration, whatever the status of the record: a repeatable migration
    whose install failed is not tried again while its checksum stays the
    same. *)
Theorem recorded_repeatable_skipped m (installed : list (Migration DB)) rec mig
    rank lastInstalled checksums rest rank' w :
  scan_installed (installed ++ [rec]) 0 VersionNone ∅
  = inr (rank, lastInstalled, checksums) ->
  IsRepeatable rec = true ->
  Description rec = Description mig ->
  Checksum rec = Checksum mig ->
  install_repeatable m checksums (mig :: rest) rank' w
  = install_repeatable m checksums rest rank'
      (log w "skipping repeatable migration: %s" [Description mig]).
Proof.
  intros Hs Hr Hd Hc.
  assert (Hu : unchanged checksums mig = true).
  { apply (unchanged_last_recorded _ _ _ _ mig Hs).
    rewrite last_recorded_snoc, Hr, Hd, String.eqb_refl, Hc. reflexivity. }
  cbn [install_repeatable]. now rewrite Hu.
Qed.

(** *** SQL migrations *)

Lemma exec_all_app (xs ys : list string) (d : DB) :
  exec_all (xs ++ ys) d
  = match exec_all xs d with
    | (d', Some err) => (d', Some err)
    | (d', None) => exec_all ys d'
    end.
Proof.
  revert d. induction xs as [|x xs IH]; intros d; [reflexivity |].
  cbn [app exec_all]. destruct (Exec d x) as [d' [err|]]; [reflexivity | apply IH].
Qed.

(** X8.  The callable of a SQL migration stops at the first statement that
    fails: the statements before it have been executed, the error of the
    failing one is returned, and the statements after it are not sent to
    the database. *)
Theorem exec_all_stops (pre post : list string) (stmt : string) (d d1 d2 : DB)
    (err : string) :
  exec_all pre d = (d1, None) ->
  Exec d1 stmt = (d2, Some err) ->
  exec_all (pre ++ stmt :: post) d = (d2, Some err).
Proof.
  intros Hpre Hs. rewrite exec_all_app, Hpre. cbn [exec_all]. now rewrite Hs.
Qed.

Lemma Statements_without_fragment (head frag : string) :
  whole_lines head = true ->
  Forall (fun l => HasSuffix (TrimSpace l)
                     (awaited (builder_after head) (ScanLines frag)) = false)
         (ScanLines frag) ->
  Statements (head +:+ frag) = Statements head.
Proof.
  intros Hw Hfrag. destruct (ScanLines_app head frag Hw) as (tl & E & [-> | ->]).
  - unfold Statements. now rewrite E, app_nil_r.
  - unfold Statements. rewrite E, scan_loop_app.
    now apply scan_loop_unterminated.
Qed.

(** X9.  Text after the last terminator never reaches the database.  A SQL
    migration registered with a script that ends in an unterminated fragment
    gets the same callable as one registered with the script without the
    fragment. *)
Theorem AddSQLMigration_fragment (SQLChecksum : string -> string) m
    (version description head frag : string) :
  whole_lines head = true ->
  Forall (fun l => HasSuffix (TrimSpace l)
                     (awaited (builder_after head) (ScanLines frag)) = false)
         (ScanLines frag) ->
  map Execute
    (migrations (AddSQLMigration SQLChecksum m version description (head +:+ frag)))
  = map Execute
      (migrations (AddSQLMigration SQLChecksum m version description head))
  /\ map Execute
       (repeatable (AddSQLMigration SQLChecksum m version description (head +:+ frag)))
     = map Execute
         (repeatable (AddSQLMigration SQLChecksum m version description head)).
Proof.
  intros Hw Hfrag. unfold AddSQLMigration, Add, IsRepeatable. cbn [Version].
  rewrite (Statements_without_fragment head frag Hw Hfrag).
  destruct (String.eqb version VersionRepeatable); cbn [migrations repeatable];
    rewrite ?map_app; auto.
Qed.

End Generic.

End MoreMigrate.

(** ** More on the SQLite adapter and the orchestrator on it *)

Module MoreSQLite.
Import GoStd Migrate MigrateSpec MigrateProps SQLite SQLiteSpec SQLiteProps.

Section OnSQLite.
Context `{Conn SqliteDB}.

Implicit Types (m : Migrator SqliteDB) (mig : Migration SqliteDB)
  (w : World SqliteDB) (rows : list Row).

(** *** The table *)

Lemma insert_row_elements (r : Row) rows rows' :
  insert_row r rows = Some rows' ->
  (forall x, In x rows' <-> x = r \/ In x rows)
  /\ length rows' = S (length rows).
Proof.
  revert rows'. induction rows as [|y rows IH]; intros rows' Hi.
  - cbn in Hi. injection Hi as <-. split; [| reflexivity].
    intros x. cbn. intuition.
  - cbn [insert_row] in Hi. destruct (r_rank r <? r_rank y)%Z.
    + injection Hi as <-. split; [| reflexivity]. intros x. cbn. intuition.
    + destruct (r_rank r =? r_rank y)%Z; [discriminate |].
      destruct (insert_row r rows) as [rows1|]; [| discriminate].
      injection Hi as <-. destruct (IH rows1 eq_refl) as [Hin Hlen].
      split; [| cbn; now rewrite Hlen].
      intros x. cbn. rewrite Hin. intuition.
Qed.

(** X10.  What is recorded can be listed.  After a successful
    [RecordMigration], [ListMigrations] succeeds and returns one migration
    more than the history had: the rows that were there and the migration
    recorded, with the fields as they were except for the date, cut to
    whole seconds, and the callable, which is not stored. *)
Theorem record_then_list (d d' : SqliteDB) mig :
  RecordMigration SQLiteSupport d mig = (d', None) ->
  exists rows',
    ListMigrations SQLiteSupport d' = (d', (map of_row rows', None))
    /\ (forall x, In x rows' <-> x = to_row mig \/ In x (history d))
    /\ length rows' = S (length (history d))
    /\ of_row (to_row mig)
       = {| Rank := Rank mig; Version := Version mig;
            Description := Description mig; Type_ := Type_ mig;
            Checksum := Checksum mig;
            Date := Date mig / 1000000000 * 1000000000;
            ExecutionTime := ExecutionTime mig; Status := Status mig;
            Execute := None |}.
Proof.
  cbn [RecordMigration ListMigrations SQLiteSupport].
  unfold sqliteRecordMigration, sqliteListMigrations, history. intros Hr.
  destruct (migrations_table d) as [rows|]; [| discriminate].
  destruct (readonly d); [discriminate |].
  destruct (insert_row (to_row mig) rows) as [rows'|] eqn:Hi; [| discriminate].
  injection Hr as <-. exists rows'. cbn [with_table migrations_table].
  destruct (insert_row_elements _ _ _ Hi) as [Hin Hlen]. split_and!; auto.
Qed.

(** X11.  The rank is a primary key.  Recording a migration whose rank is
    the rank of a row of the history fails and leaves the database as it
    was. *)
Theorem record_duplicate_rank (d : SqliteDB) mig rows (x : Row) :
  migrations_table d = Some rows ->
  by_rank rows ->
  In x rows -> r_rank x = Rank mig ->
  exists err, RecordMigration SQLiteSupport d mig = (d, Some err).
Proof.
  intros Ht Hs Hx Hrk. cbn [RecordMigration SQLiteSupport].
  unfold sqliteRecordMigration. rewrite Ht.
  destruct (readonly d); [eauto |].
  assert (Hnone : insert_row (to_row mig) rows = None).
  { clear Ht. change (Rank mig) with (r_rank (to_row mig)) in Hrk.
    generalize dependent (to_row mig). intros r Hrk.
    induction Hs as [|y rows _ IH Hy]; [contradiction |].
    cbn [insert_row]. destruct (Z.ltb_spec (r_rank r) (r_rank y)) as [Hlt | Hge].
    - exfalso. destruct Hx as [-> | Hx]; [lia |].
      rewrite List.Forall_forall in Hy. specialize (Hy x Hx). lia.
    - destruct (Z.eqb_spec (r_rank r) (r_rank y)) as [_ | Hne]; [reflexivity |].
      destruct Hx as [-> | Hx]; [congruence |]. now rewrite (IH Hx). }
  rewrite Hnone. eauto.
Qed.

Lemma insert_row_by_rank (r : Row) rows rows' :
  by_rank rows -> insert_row r rows = Some rows' -> by_rank rows'.
Proof.
  intros Hs. revert rows'. induction Hs as [|y rows Hs IH Hy]; intros rows' Hi.
  - cbn in Hi. injection Hi as <-. repeat constructor.
  - cbn [insert_row] in Hi.
    destruct (Z.ltb_spec (r_rank r) (r_rank y)) as [Hlt | Hge].
    + injection Hi as <-. constructor; [now constructor |].
      constructor; [exact Hlt |].
      eapply List.Forall_impl; [| exact Hy]. cbn. intros; lia.
    + destruct (Z.eqb_spec (r_rank r) (r_rank y)) as [| Hne]; [discriminate |].
      destruct (insert_row r rows) as [rows1|] eqn:E; [| discriminate].
      injection Hi as <-. constructor; [now apply IH |].
      apply List.Forall_forall. intros x Hx.
      apply (proj1 (insert_row_elements r rows rows1 E)) in Hx as [-> | Hx]; [lia |].
      rewrite List.Forall_forall in Hy. now apply Hy.
Qed.

(** X12.  The history stays in rank order.  A successful [RecordMigration]
    on a history in strictly ascending rank order leaves it so, wherever
    the new rank falls: ranks stay pairwise distinct and [ListMigrations]
    keeps returning them in ascending order. *)
Theorem record_keeps_rank_order (d d' : SqliteDB) mig :
  by_rank (history d) ->
  RecordMigration SQLiteSupport d mig = (d', None) ->
  by_rank (history d').
Proof.
  cbn [RecordMigration SQLiteSupport]. unfold sqliteRecordMigration, history.
  intros Hs Hr. destruct (migrations_table d) as [rows|]; [| discriminate].
  destruct (readonly d); [discriminate |].
  destruct (insert_row (to_row mig) rows) as [rows'|] eqn:Hi; [| discriminate].
  injection Hr as <-. cbn [with_table migrations_table].
  now apply (insert_row_by_rank (to_row mig) rows).
Qed.

(** *** Failures and the history *)

(** X14.  A failed execution is recorded and returned.  When the callable
    of a migration fails on a writable database whose history holds only
    lower ranks, [install] writes the record of the migration as the last
    row, with status failed, and returns the error of the callable. *)
Theorem install_failure_recorded m mig w (execute : CommandFunc SqliteDB) d e rows :
  support m = SQLiteSupport ->
  Execute mig = Some execute ->
  execute (db w) = (d, Some e) ->
  migrations_table d = Some rows ->
  readonly d = false ->
  Forall (fun x => r_rank x < Rank mig) rows ->
  exists r,
    install m mig w
    = (with_db (log w "installing: %s" [String_ mig])
         (with_table d (Some (rows ++ [r]))), Some e)
    /\ records mig r /\ r_rank r = Rank mig /\ r_status r = StatusFailed.
Proof.
  intros Hs He Hx Ht Hro Hr. unfold install. rewrite He. cbn [log db].
  rewrite Hx, Hs. cbn [RecordMigration SQLiteSupport].
  unfold sqliteRecordMigration. rewrite Ht, Hro.
  rewrite insert_row_last by exact Hr.
  eexists. split; [reflexivity |]. repeat split.
Qed.

Lemma failed_row_found rows (r : Row) :
  String.eqb (r_version r) VersionRepeatable = false ->
  r_status r = StatusFailed ->
  existsb failed_sequential (map of_row (rows ++ [r])) = true.
Proof.
  intros Hv Hst. rewrite map_app, existsb_app. apply orb_true_iff. right.
  cbn [map existsb]. unfold failed_sequential, IsRepeatable.
  cbn [of_row Version Status]. now rewrite Hv, Hst.
Qed.

(** X15.  A failed sequential migration is a hard stop.  After the install
    of a sequential migration has failed as in X14, [Migrate] with any
    registry on the SQLite adapter returns an error and leaves the database
    untouched, for as long as the failed record is the last row. *)
Theorem Migrate_after_failed_install m mig w (execute : CommandFunc SqliteDB)
    d e rows (m' : Migrator SqliteDB) :
  support m = SQLiteSupport ->
  Execute mig = Some execute ->
  execute (db w) = (d, Some e) ->
  migrations_table d = Some rows ->
  readonly d = false ->
  Forall (fun x => r_rank x < Rank mig) rows ->
  IsRepeatable mig = false ->
  support m' = SQLiteSupport ->
  exists err,
    Migrate m' (fst (install m mig w)) = (fst (install m mig w), Some err).
Proof.
  intros Hs He Hx Ht Hro Hr Hrep Hs'.
  destruct (install_failure_recorded m mig w execute d e rows Hs He Hx Ht Hro Hr)
    as (r & -> & (Hv & _) & _ & Hst).
  cbn [fst]. set (w1 := with_db _ _).
  pose proof (read_history_sqlite m' w1 Hs') as Hrd.
  cbn [w1 with_db db with_table migrations_table] in Hrd. fold w1 in Hrd.
  assert (Hex : existsb failed_sequential (map of_row (rows ++ [r])) = true).
  { apply failed_row_found; [| exact Hst]. rewrite Hv. exact Hrep. }
  destruct (scan_installed_failed _ 0 VersionNone ∅ Hex) as [err Herr].
  exists err. unfold Migrate. now rewrite Hrd, Herr.
Qed.

(** *** The history only grows *)

Lemma seqZ_by_rank (new : list Row) (a : Z) :
  map r_rank new = seqZ a (Z.of_nat (length new)) ->
  by_rank new /\ Forall (fun x => a <= r_rank x) new.
Proof.
  revert a. induction new as [|r new IH]; intros a Hr.
  - split; constructor.
  - cbn [map length] in Hr. rewrite Nat2Z.inj_succ, seqZ_cons in Hr by lia.
    injection Hr as Hr0 Hr. replace (Z.pred (Z.succ (Z.of_nat (length new))))
      with (Z.of_nat (length new)) in Hr by lia.
    destruct (IH (Z.succ a) Hr) as [Hs Hge]. split.
    + constructor; [exact Hs |].
      eapply List.Forall_impl; [| exact Hge]. cbn. intros; lia.
    + constructor; [lia |].
      eapply List.Forall_impl; [| exact Hge]. cbn. intros; lia.
Qed.

Lemma by_rank_app rows new :
  by_rank rows -> by_rank new ->
  Forall (fun x => top_rank rows + 1 <= r_rank x) new ->
  by_rank (rows ++ new).
Proof.
  intros Hs Hn Hge. apply StronglySorted_app. split_and!; auto.
  intros x y Hx Hy. pose proof (by_rank_top rows Hs) as Hle.
  rewrite Forall_forall in Hle, Hge. specialize (Hle x Hx). specialize (Hge y Hy).
  lia.
Qed.

(** X16.  [Migrate] only appends to the history.  On the SQLite adapter,
    from a history in rank order, the callables leaving the history table
    alone and the counter having room, the history after [Migrate] is the
    history before followed by new rows: no row is changed, removed or
    moved, the new ranks are above the old ones, and the order by rank is
    kept. *)
Theorem Migrate_appends m w :
  support m = SQLiteSupport ->
  Forall preserves_table (migrations m ++ repeatable m) ->
  by_rank (history (db w)) ->
  room (history (db w)) m ->
  exists new,
    history (db (fst (Migrate m w))) = history (db w) ++ new
    /\ by_rank (history (db w) ++ new)
    /\ Forall (fun x => top_rank (history (db w)) < r_rank x) new.
Proof.
  intros Hs Hp Hsorted [Hlo Hhi]. apply Forall_app in Hp as [Hpm Hpr].
  remember (history (db w)) as old eqn:Hold.
  assert (Hnone : forall w1, history (db w1) = old ->
             exists new, history (db w1) = old ++ new
                         /\ by_rank (old ++ new)
                         /\ Forall (fun x => top_rank old < r_rank x) new).
  { intros w1 Hw1. exists []. rewrite app_nil_r. split_and!; auto. }
  assert (Hloops : forall w1 lastInstalled checksums,
             migrations_table (db w1) = Some old ->
             exists new,
               history (db (fst (run_loops m (migrations m) (repeatable m)
                                   (top_rank old) lastInstalled checksums w1)))
               = old ++ new
               /\ by_rank (old ++ new)
               /\ Forall (fun x => top_rank old < r_rank x) new).
  { intros w1 lastInstalled checksums Ht.
    destruct (run_loops_sqlite m (migrations m) (repeatable m) (top_rank old)
                lastInstalled checksums w1 old Hs Hpm Hpr Ht
                (by_rank_top old Hsorted) Hlo Hhi)
      as (rec_seq & new_seq & rest_seq & rec_rep & new_rep & rest_rep
          & A1 & _ & _ & _ & _ & A6 & _).
    exists (new_seq ++ new_rep). unfold history. rewrite A1.
    destruct (seqZ_by_rank _ _ A6) as [Hn Hge]. split_and!.
    - reflexivity.
    - now apply by_rank_app.
    - eapply Forall_impl; [exact Hge |]. cbn. intros; lia. }
  pose proof (read_history_sqlite m w Hs) as Hrd.
  unfold history in Hold. destruct (migrations_table (db w)) as [rows|] eqn:Ht.
  - subst rows.
    destruct (scan_installed (map of_row old) 0 VersionNone ∅)
      as [err | [[rank lastInstalled] checksums]] eqn:Hscan.
    + unfold Migrate. rewrite Hrd, Hscan. cbn [fst]. apply Hnone.
      unfold history. now rewrite Ht.
    + rewrite (Migrate_run_loops m w w _ _ _ _ Hrd Hscan).
      apply scan_rows_rank in Hscan. rewrite Hscan. now apply Hloops.
  - subst old. destruct (readonly (db w)).
    + unfold Migrate. rewrite Hrd. cbn [fst]. apply Hnone.
      unfold history. now rewrite Ht.
    + rewrite (Migrate_run_loops m w _ [] 0 VersionNone ∅ Hrd eq_refl).
      now apply (Hloops _ VersionNone ∅).
Qed.

(** *** The history table is there after Migrate *)

Lemma install_keeps_table m mig w rows :
  support m = SQLiteSupport -> preserves_table mig ->
  migrations_table (db w) = Some rows ->
  exists rows', migrations_table (db (fst (install m mig w))) = Some rows'.
Proof.
  intros Hs Hp Ht. unfold install. destruct (Execute mig) as [execute|] eqn:He;
    [| eauto].
  cbn [log db]. specialize (Hp execute (db w) He).
  destruct (execute (db w)) as [d e]. cbn [fst] in Hp. rewrite Ht in Hp.
  rewrite Hs. cbn [RecordMigration SQLiteSupport]. unfold sqliteRecordMigration.
  rewrite Hp. destruct (readonly d); [cbn; eauto |].
  destruct (insert_row _ rows) as [rows'|]; cbn; eauto.
Qed.

Lemma install_where_keeps_table m skip note (migs : list (Migration SqliteDB)) :
  support m = SQLiteSupport -> Forall preserves_table migs ->
  forall rank w rows,
    migrations_table (db w) = Some rows ->
    exists rows',
      migrations_table (db (fst (fst (install_where m skip note migs rank w))))
      = Some rows'.
Proof.
  intros Hs Hp. induction Hp as [|mig migs Hp1 _ IH]; intros rank w rows Ht;
    [cbn; eauto |].
  cbn [install_where]. destruct (skip mig); [now apply (IH _ _ rows) |].
  destruct (install_keeps_table m (with_rank mig (wrap64 (rank + 1))) w rows Hs
              (preserves_with_rank mig _ Hp1) Ht) as [rows1 Ht1].
  destruct (install m _ w) as [w1 [err|]]; cbn [fst] in Ht1 |- *; [eauto |].
  now apply (IH _ _ rows1).
Qed.

(** X17.  [Migrate] creates the history table.  On a writable database,
    the callables leaving the history table alone, the table exists once
    [Migrate] has returned, with or without error, whether it was there
    before or not. *)
Theorem Migrate_creates_table m w :
  support m = SQLiteSupport ->
  Forall preserves_table (migrations m ++ repeatable m) ->
  readonly (db w) = false ->
  fst (snd (ExistsMigrationsTable SQLiteSupport (db (fst (Migrate m w))))) = true.
Proof.
  intros Hs Hp Hro. apply Forall_app in Hp as [Hpm Hpr].
  cbn [ExistsMigrationsTable SQLiteSupport]. unfold sqliteExistsMigrationsTable.
  cbn [fst snd].
  assert (Hsome : exists rows', migrations_table (db (fst (Migrate m w))) = Some rows');
    [| destruct Hsome as [rows' ->]; reflexivity].
  pose proof (read_history_sqlite m w Hs) as Hrd. rewrite Hro in Hrd.
  assert (Hrun : exists w0 rows0 installed,
             read_history m w = (w0, (installed, None))
             /\ migrations_table (db w0) = Some rows0).
  { destruct (migrations_table (db w)) as [rows|] eqn:Ht; eauto. }
  destruct Hrun as (w0 & rows0 & installed & Hrd0 & Ht0).
  unfold Migrate. rewrite Hrd0.
  destruct (scan_installed installed 0 VersionNone ∅)
    as [err | [[rank lastInstalled] checksums]]; [cbn; eauto |].
  rewrite install_pending_where.
  destruct (install_where_keeps_table m (fun mig => LEQ (Version mig) lastInstalled)
              note_installed (migrations m) Hs Hpm rank w0 rows0 Ht0)
    as [rows1 Ht1].
  destruct (install_where m _ note_installed (migrations m) rank w0)
    as [[w1 rank1] [err|]]; cbn [fst] in Ht1 |- *; [eauto |].
  rewrite install_repeatable_where.
  destruct (install_where_keeps_table m (unchanged checksums) note_repeatable
              (repeatable m) Hs Hpr rank1 w1 rows1 Ht1) as [rows2 Ht2].
  destruct (install_where m _ note_repeatable (repeatable m) rank1 w1)
    as [[w2 rank2] [err|]]; cbn [fst] in Ht2 |- *; eauto.
Qed.

(** *** Baseline once *)




End OnSQLite.

End MoreSQLite.

(** ** Versions that are numerals *)

Module NumeralFacts.
Import GoStd StringFacts NumeralSpec Migrate MigrateSpec.

Lemma digit_digit_char (d : Z) : 0 <= d < 10 -> digit (digit_char d) = Some d.
Proof.
  intros Hd.
  assert (E : d = 0 \/ d = 1 \/ d = 2 \/ d = 3 \/ d = 4 \/ d = 5 \/ d = 6
              \/ d = 7 \/ d = 8 \/ d = 9) by lia.
  repeat (destruct E as [-> | E]; [reflexivity |]). now subst.
Qed.

Lemma parse_digits_app (s1 s2 : string) (acc : Z) :
  parse_digits (s1 +:+ s2) acc
  = match parse_digits s1 acc with
    | (v, None) => parse_digits s2 v
    | r => r
    end.
Proof.
  revert acc. induction s1 as [|c s1 IH]; intros acc; [reflexivity |].
  rewrite append_cons. cbn [parse_digits]. destruct (digit c); [| reflexivity].
  destruct (uint_cutoff <=? acc)%Z; [reflexivity |].
  cbv zeta. destruct (maxUint64 <? 10 * acc + z)%Z; [reflexivity | apply IH].
Qed.

Lemma parse_digits_one (d acc : Z) :
  0 <= d < 10 -> 0 <= acc -> 10 * acc + d < 10 ^ 19 ->
  parse_digits (String (digit_char d) EmptyString) acc = (10 * acc + d, None).
Proof.
  intros Hd Ha Hb. cbn [parse_digits]. rewrite digit_digit_char by exact Hd.
  assert (Hc : 10 ^ 19 <= 10 * uint_cutoff) by (vm_compute; discriminate).
  assert (Hm : 10 ^ 19 <= maxUint64) by (vm_compute; discriminate).
  destruct (Z.leb_spec uint_cutoff acc); [lia |]. cbv zeta.
  destruct (Z.ltb_spec maxUint64 (10 * acc + d)); [lia | reflexivity].
Qed.

Lemma parse_show_digits (fuel : nat) (n : Z) :
  (fuel <= 19)%nat -> 0 <= n < 10 ^ Z.of_nat fuel ->
  parse_digits (show_digits fuel n) 0 = (n, None).
Proof.
  revert n. induction fuel as [|fuel IH]; intros n Hf Hn.
  - cbn in *. f_equal; lia.
  - cbn [show_digits]. rewrite parse_digits_app.
    assert (Hp : 10 ^ Z.of_nat (S fuel) <= 10 ^ 19)
      by (apply Z.pow_le_mono_r; lia).
    rewrite Nat2Z.inj_succ, Z.pow_succ_r in Hn by lia.
    rewrite Nat2Z.inj_succ, Z.pow_succ_r in Hp by lia.
    assert (Hm : 0 <= n mod 10 < 10) by (apply Z.mod_pos_bound; lia).
    pose proof (Z.div_mod n 10 ltac:(lia)) as Hdm.
    destruct (Z.ltb_spec n 10) as [Hlt | Hge].
    + change (parse_digits EmptyString 0) with (0, @None NumError).
      cbv beta iota. rewrite parse_digits_one by lia.
      f_equal. rewrite Z.mod_small; lia.
    + rewrite IH.
      * rewrite parse_digits_one; [f_equal; lia | exact Hm | | lia].
        apply Z.div_pos; lia.
      * lia.
      * split; [apply Z.div_pos; lia |].
        apply Z.div_lt_upper_bound; lia.
Qed.

Lemma digit_char_not_sign (d : Z) :
  0 <= d < 10 ->
  Ascii.eqb (digit_char d) "+" = false /\ Ascii.eqb (digit_char d) "-" = false.
Proof.
  intros Hd.
  assert (E : d = 0 \/ d = 1 \/ d = 2 \/ d = 3 \/ d = 4 \/ d = 5 \/ d = 6
              \/ d = 7 \/ d = 8 \/ d = 9) by lia.
  repeat (destruct E as [-> | E]; [now split |]). now subst.
Qed.

Lemma show_digits_S (fuel : nat) (n : Z) :
  show_digits (S fuel) n
  = (if (n <? 10)%Z then EmptyString else show_digits fuel (n / 10))
    +:+ String (digit_char (n mod 10)) EmptyString.
Proof. reflexivity. Qed.

Lemma show_digits_cons (fuel : nat) (n : Z) :
  exists c s, show_digits (S fuel) n = String c s
              /\ Ascii.eqb c "+" = false /\ Ascii.eqb c "-" = false.
Proof.
  assert (Hd : forall k, Ascii.eqb (digit_char (k mod 10)) "+" = false
                         /\ Ascii.eqb (digit_char (k mod 10)) "-" = false).
  { intros k. apply digit_char_not_sign, Z.mod_pos_bound. lia. }
  revert n. induction fuel as [|fuel IH]; intros n; rewrite show_digits_S.
  - exists (digit_char (n mod 10)), EmptyString.
    split; [now destruct (n <? 10)%Z | apply Hd].
  - destruct (n <? 10)%Z.
    + exists (digit_char (n mod 10)), EmptyString.
      split; [reflexivity | apply Hd].
    + destruct (IH (n / 10)) as (c & s & -> & Hp & Hs).
      exists c, (s +:+ String (digit_char (n mod 10)) EmptyString).
      now rewrite append_cons.
Qed.

Lemma ParseInt_FormatInt (n : Z) :
  - 2 ^ 63 <= n < 2 ^ 63 -> ParseInt (FormatInt n) = (n, false).
Proof.
  intros Hn. unfold FormatInt.
  assert (Hpow : 2 ^ 63 < 10 ^ Z.of_nat 19) by (vm_compute; reflexivity).
  destruct (Z.ltb_spec n 0) as [Hneg | Hpos].
  - assert (Hb : 0 <= - n < 10 ^ Z.of_nat 19) by lia.
    destruct (show_digits_cons 18 (- n)) as (c & s & E & _).
    unfold ParseInt. cbn [Ascii.eqb Bool.eqb orb]. unfold ParseUint.
    rewrite E, <- E.
    rewrite (parse_show_digits 19 (- n) (le_n _) Hb). unfold cutoff.
    cbn [negb andb].
    destruct (Z.ltb_spec (2 ^ 63) (- n)); [lia |]. f_equal. lia.
  - assert (Hb : 0 <= n < 10 ^ Z.of_nat 19) by lia.
    destruct (show_digits_cons 18 n) as (c & s & E & Hp & Hm).
    unfold ParseInt. rewrite E, Hp, Hm. cbn [orb]. unfold ParseUint.
    rewrite <- E.
    rewrite (parse_show_digits 19 n (le_n _) Hb). unfold cutoff.
    cbn [negb andb].
    destruct (Z.leb_spec (2 ^ 63) n); [lia | reflexivity].
Qed.

(** X19.  Numerals are compared by value.  For two versions that are the
    decimal numerals of 64-bit integers, [LEQ] is the order of the
    integers, not the order of the strings: 9 is before 10. *)
Theorem LEQ_numerals (a b : Z) :
  - 2 ^ 63 <= a < 2 ^ 63 -> - 2 ^ 63 <= b < 2 ^ 63 ->
  LEQ (FormatInt a) (FormatInt b) = (a <=? b)%Z.
Proof.
  intros Ha Hb. unfold LEQ. now rewrite !ParseInt_FormatInt.
Qed.

Lemma LEQ_numerals_witness :
  LEQ (FormatInt 9) (FormatInt 10) = (9 <=? 10)%Z.
Proof. apply (LEQ_numerals 9 10); lia. Defined.

Example FormatInt_examples :
  FormatInt 0 = "0" /\ FormatInt 20240101 = "20240101" /\ FormatInt (-7) = "-7"
  /\ FormatInt (2 ^ 63 - 1) = "9223372036854775807"
  /\ FormatInt (- 2 ^ 63) = "-9223372036854775808".
Proof. vm_compute. auto. Qed.

End NumeralFacts.

(** ** Instances of the further theorems *)

Module MoreTests.
Import GoStd Migrate MigrateSpec SQLite SQLiteSpec Inputs Splitter SplitterSpec.

Section WithConn0.
#[local] Existing Instance conn0.

Lemma Migrate_stops_at_failure_witness :
  Migrate second_fails (world fresh_db)
  = (fst (install second_fails
            (with_rank (go "2" "orders" (failing "no such table: customers"))
               (wrap64 (1 + 1)))
            (fst (fst (install_pending second_fails VersionNone
                         [go "1" "users" (create_table "users")] 0
                         (world (with_history [])))))),
     Some "no such table: customers").
Proof.
  apply (MoreMigrate.Migrate_stops_at_failure second_fails (world fresh_db)
           (world (with_history [])) [] 0 VersionNone (∅ : gmap string string)
           [go "1" "users" (create_table "users")]
           (go "2" "orders" (failing "no such table: customers"))
           [go "3" "items" (create_table "items")]
           (fst (fst (install_pending second_fails VersionNone
                        [go "1" "users" (create_table "users")] 0
                        (world (with_history []))))) 1);
    reflexivity.
Defined.

(** In that run the third migration is not installed, and the history
    ends with the failed record. *)
Example second_fails_run :
  map (fun r => (r_rank r, r_version r, r_status r))
    (history (db (fst (Migrate second_fails (world fresh_db)))))
  = [(1, "1", StatusSuccess); (2, "2", StatusFailed)].
Proof. vm_compute. reflexivity. Qed.

Lemma recorded_repeatable_skipped_witness :
  install_repeatable (registry []) (<["totals" := "abc"]> ∅)
    [view "totals" "abc"] 1 (world (with_history []))
  = install_repeatable (registry []) (<["totals" := "abc"]> ∅) [] 1
      (log (world (with_history [])) "skipping repeatable migration: %s"
         [Description (view "totals" "abc")]).
Proof.
  apply (MoreMigrate.recorded_repeatable_skipped (registry []) []
           (of_row (row 1 "R" "totals" "abc" StatusFailed))
           (view "totals" "abc") 1 VersionNone (<["totals" := "abc"]> ∅) [] 1
           (world (with_history [])));
    reflexivity.
Defined.

Lemma AddSQLMigration_fragment_witness :
  map Execute
    (migrations (AddSQLMigration (fun script => script)
                   (NewMigrator SQLiteSupport) "1" "drop foo"
                   (complete_head +:+ open_trigger)))
  = map Execute
      (migrations (AddSQLMigration (fun script => script)
                     (NewMigrator SQLiteSupport) "1" "drop foo" complete_head))
  /\ map Execute
       (repeatable (AddSQLMigration (fun script => script)
                      (NewMigrator SQLiteSupport) "1" "drop foo"
                      (complete_head +:+ open_trigger)))
     = map Execute
         (repeatable (AddSQLMigration (fun script => script)
                        (NewMigrator SQLiteSupport) "1" "drop foo" complete_head)).
Proof.
  apply (MoreMigrate.AddSQLMigration_fragment (fun script => script)
           (NewMigrator SQLiteSupport) "1" "drop foo" complete_head open_trigger).
  - reflexivity.
  - vm_compute. repeat constructor.
Defined.

Lemma record_then_list_witness :
  exists rows',
    ListMigrations SQLiteSupport
      (fst (RecordMigration SQLiteSupport populated_db
              (with_rank (go "2" "orders" (create_table "orders")) 2)))
    = (fst (RecordMigration SQLiteSupport populated_db
              (with_rank (go "2" "orders" (create_table "orders")) 2)),
       (map of_row rows', None))
    /\ (forall x,
          In x rows'
          <-> x = to_row (with_rank (go "2" "orders" (create_table "orders")) 2)
              \/ In x (history populated_db))
    /\ length rows' = S (length (history populated_db))
    /\ of_row (to_row (with_rank (go "2" "orders" (create_table "orders")) 2))
       = {| Rank := Rank (with_rank (go "2" "orders" (create_table "orders")) 2);
            Version := Version (with_rank (go "2" "orders" (create_table "orders")) 2);
            Description :=
              Description (with_rank (go "2" "orders" (create_table "orders")) 2);
            Type_ := Type_ (with_rank (go "2" "orders" (create_table "orders")) 2);
            Checksum :=
              Checksum (with_rank (go "2" "orders" (create_table "orders")) 2);
            Date :=
              Date (with_rank (go "2" "orders" (create_table "orders")) 2)
              / 1000000000 * 1000000000;
            ExecutionTime :=
              ExecutionTime (with_rank (go "2" "orders" (create_table "orders")) 2);
            Status := Status (with_rank (go "2" "orders" (create_table "orders")) 2);
            Execute := None |}.
Proof.
  apply (MoreSQLite.record_then_list populated_db
           (fst (RecordMigration SQLiteSupport populated_db
                   (with_rank (go "2" "orders" (create_table "orders")) 2)))
           (with_rank (go "2" "orders" (create_table "orders")) 2)).
  reflexivity.
Defined.

Lemma populated_by_rank : by_rank (history populated_db).
Proof. repeat constructor. Qed.

Lemma record_duplicate_rank_witness :
  exists err,
    RecordMigration SQLiteSupport populated_db
      (with_rank (go "2" "orders" (create_table "orders")) 1)
    = (populated_db, Some err).
Proof.
  apply (MoreSQLite.record_duplicate_rank populated_db
           (with_rank (go "2" "orders" (create_table "orders")) 1)
           [row 1 "1" "users" EmptyString StatusSuccess]
           (row 1 "1" "users" EmptyString StatusSuccess)).
  - reflexivity.
  - exact populated_by_rank.
  - now left.
  - reflexivity.
Defined.

Lemma record_keeps_rank_order_witness :
  by_rank
    (history (fst (RecordMigration SQLiteSupport populated_db
                     (with_rank (go "0" "early" (create_table "early")) 0)))).
Proof.
  apply (MoreSQLite.record_keeps_rank_order populated_db
           (fst (RecordMigration SQLiteSupport populated_db
                   (with_rank (go "0" "early" (create_table "early")) 0)))
           (with_rank (go "0" "early" (create_table "early")) 0)).
  - exact populated_by_rank.
  - reflexivity.
Defined.

Lemma install_failure_recorded_witness :
  exists r,
    install (registry [])
      (with_rank (go "2" "orders" (failing "no such table: customers")) 2)
      (world populated_db)
    = (with_db
         (log (world populated_db) "installing: %s"
            [String_ (with_rank (go "2" "orders"
                                   (failing "no such table: customers")) 2)])
         (with_table populated_db
            (Some ([row 1 "1" "users" EmptyString StatusSuccess] ++ [r]))),
       Some "no such table: customers")
    /\ records (with_rank (go "2" "orders" (failing "no such table: customers")) 2) r
    /\ r_rank r
       = Rank (with_rank (go "2" "orders" (failing "no such table: customers")) 2)
    /\ r_status r = StatusFailed.
Proof.
  apply (MoreSQLite.install_failure_recorded (registry [])
           (with_rank (go "2" "orders" (failing "no such table: customers")) 2)
           (world populated_db) (failing "no such table: customers")
           populated_db "no such table: customers"
           [row 1 "1" "users" EmptyString StatusSuccess]);
    try reflexivity.
  repeat constructor.
Defined.

Lemma Migrate_after_failed_install_witness :
  exists err,
    Migrate in_order
      (fst (install (registry [])
              (with_rank (go "2" "orders" (failing "no such table: customers")) 2)
              (world populated_db)))
    = (fst (install (registry [])
              (with_rank (go "2" "orders" (failing "no such table: customers")) 2)
              (world populated_db)),
       Some err).
Proof.
  apply (MoreSQLite.Migrate_after_failed_install (registry [])
           (with_rank (go "2" "orders" (failing "no such table: customers")) 2)
           (world populated_db) (failing "no such table: customers")
           populated_db "no such table: customers"
           [row 1 "1" "users" EmptyString StatusSuccess] in_order);
    try reflexivity.
  repeat constructor.
Defined.

Lemma in_order_frame :
  Forall preserves_table (migrations in_order ++ repeatable in_order).
Proof.
  repeat constructor; intros execute d He; cbn in He; injection He as <-;
    reflexivity.
Qed.

Lemma Migrate_appends_witness :
  exists new,
    history (db (fst (Migrate in_order (world populated_db))))
    = history (db (world populated_db)) ++ new
    /\ by_rank (history (db (world populated_db)) ++ new)
    /\ Forall (fun x => top_rank (history (db (world populated_db))) < r_rank x) new.
Proof.
  apply (MoreSQLite.Migrate_appends in_order (world populated_db)).
  - reflexivity.
  - exact in_order_frame.
  - exact populated_by_rank.
  - split; vm_compute; [discriminate | reflexivity].
Defined.

Lemma Migrate_creates_table_witness :
  fst (snd (ExistsMigrationsTable SQLiteSupport
              (db (fst (Migrate second_fails (world fresh_db)))))) = true.
Proof.
  apply (MoreSQLite.Migrate_creates_table second_fails (world fresh_db)).
  - reflexivity.
  - repeat constructor; intros execute d He; cbn in He; injection He as <-;
      reflexivity.
  - reflexivity.
Defined.


End WithConn0.

Section WithConn1.
#[local] Existing Instance conn1.

Lemma exec_all_stops_witness :
  exec_all (["CREATE TABLE a (x);"] ++ "BAD;" :: ["CREATE TABLE b (y);"]) fresh_db
  = (fst (exec_all ["CREATE TABLE a (x);"] fresh_db), Some "near BAD: syntax error").
Proof.
  apply (MoreMigrate.exec_all_stops ["CREATE TABLE a (x);"] ["CREATE TABLE b (y);"]
           "BAD;" fresh_db (fst (exec_all ["CREATE TABLE a (x);"] fresh_db))
           (fst (exec_all ["CREATE TABLE a (x);"] fresh_db))
           "near BAD: syntax error");
    reflexivity.
Defined.

End WithConn1.

End MoreTests.
